(** * AsyncEventSource: the server-sent-events core of AsyncWebServer_WT32_ETH01

    A shallow embedding of [src/AsyncEventSource.cpp]: the event frame encoder
    [generateEventMessage], the outbound message with its send and acknowledge
    cursors, the client session with its bounded queue, and the broadcast hub.

    Conventions.
    - A C string ([const char *]) is the Rocq [string] of the characters in
      front of its terminating NUL; a possibly-NULL pointer is an [option].
    - [size_t] and [uint32_t] are 32 bits wide on the ESP32; they are integers
      in [Z] and every addition and subtraction of the source is wrapped
      modulo [2^32] explicitly.
    - The TCP connection ([AsyncClient], from the AsyncTCP library) is not part
      of this repository; it is an interface ([Class AsyncClient]). *)

From Stdlib Require Import ZArith List Lia Bool Ascii String DecimalString.
From Stdlib Require DecimalN.
Import ListNotations.

Local Open Scope list_scope.
Local Open Scope string_scope.

(** ** C strings *)

Module CStr.

Definition CR : ascii := "013"%char.
Definition LF : ascii := "010"%char.
Definition CRLF : string := String CR (String LF EmptyString).

(** [strchr s c]: the offset from [s] of the first [c], [None] for a NULL
    result.  It is only ever called with ['\n'] and ['\r']. *)
Fixpoint strchr (s : string) (c : ascii) : option nat :=
  match s with
  | EmptyString => None
  | String a s' => if Ascii.eqb a c then Some O else option_map S (strchr s' c)
  end.

(** The [n] characters that [memcpy (ldata, p, n); ldata[n] = 0] copies. *)
Fixpoint take (n : nat) (s : string) : string :=
  match n, s with
  | S n', String a s' => String a (take n' s')
  | _, _ => EmptyString
  end.

(** The pointer [p + n], as the string it points to. *)
Fixpoint drop (n : nat) (s : string) : string :=
  match n, s with
  | S n', String _ s' => drop n' s'
  | _, _ => s
  end.

Definition is_empty (s : string) : bool :=
  match s with EmptyString => true | String _ _ => false end.

(** Arduino's [String(uint32_t)]: the decimal digits. *)
Definition String_of_uint32 (n : Z) : string :=
  NilEmpty.string_of_uint (N.to_uint (Z.to_N n)).

(** A character that is neither ['\r'] nor ['\n']. *)
Definition plain (a : ascii) : bool := negb (Ascii.eqb a CR) && negb (Ascii.eqb a LF).

(** A string without any line break. *)
Fixpoint no_break (s : string) : bool :=
  match s with
  | EmptyString => true
  | String a s' => plain a && no_break s'
  end.

End CStr.
Import CStr.

(** ** The event frame encoder (AsyncEventSource.cpp, generateEventMessage) *)

Module Encoder.

(** Where the line at [lineStart] ends and where the next one starts, as
    offsets from [lineStart]: the [else] branch of the loop body, which picks
    the nearer of [nextN] and [nextR] and steps over a directly following
    partner.  [None] when neither character occurs. *)
Definition next_break (lineStart : string) : option (nat * nat) :=
  match strchr lineStart LF, strchr lineStart CR with
  | None, None => None
  | Some nextN, Some nextR =>
      if (nextR <? nextN)%nat
      then Some (nextR, if (nextN =? nextR + 1)%nat then nextN + 1 else nextR + 1)%nat
      else Some (nextN, if (nextR =? nextN + 1)%nat then nextR + 1 else nextN + 1)%nat
  | Some nextN, None => Some (nextN, nextN + 1)%nat
  | None, Some nextR => Some (nextR, nextR + 1)%nat
  end.

(** The [do ... while (lineStart < message + messageLen)] loop.  [lineStart]
    is the rest of the message from the pointer on, [ev] the frame built so
    far, [k] counts the [malloc] calls and [malloc_ok k] tells whether the
    [k]-th one returns a buffer.  [None] means that [fuel] turns were not
    enough to leave the loop; [S (length message)] always are
    ([data_lines_total]). *)
Fixpoint data_lines (fuel : nat) (malloc_ok : nat -> bool) (k : nat)
         (lineStart ev : string) : option string :=
  match fuel with
  | O => None
  | S fuel' =>
      match next_break lineStart with
      | None =>
          (* lineStart = message + messageLen afterwards: the loop is left *)
          Some (if malloc_ok k
                then ev ++ "data: " ++ lineStart ++ CRLF ++ CRLF
                else ev)
      | Some (lineEnd, nextLine) =>
          let ev1 := if malloc_ok k
                     then ev ++ "data: " ++ take lineEnd lineStart ++ CRLF
                     else ev in
          let lineStart' := drop nextLine lineStart in
          let ev2 := if is_empty lineStart' then ev1 ++ CRLF else ev1 in
          if is_empty lineStart' then Some ev2
          else data_lines fuel' malloc_ok (S k) lineStart' ev2
      end
  end.

Definition generateEventMessage (malloc_ok : nat -> bool)
           (message event : option string) (id reconnect : Z) : string :=
  let ev := "" in
  let ev := if (reconnect =? 0)%Z then ev
            else ev ++ "retry: " ++ String_of_uint32 reconnect ++ CRLF in
  let ev := if (id =? 0)%Z then ev
            else ev ++ "id: " ++ String_of_uint32 id ++ CRLF in
  let ev := match event with
            | None => ev
            | Some e => ev ++ "event: " ++ e ++ CRLF
            end in
  match message with
  | None => ev
  | Some m =>
      match data_lines (S (length m)) malloc_ok 0 m ev with
      | Some frame => frame
      | None => ev
      end
  end.

(** Every allocation succeeds. *)
Definition always : nat -> bool := fun _ => true.

(** The three optional header lines of a frame, as the wire format names
    them. *)
Definition retry_field (reconnect : Z) : string :=
  if (reconnect =? 0)%Z then "" else "retry: " ++ String_of_uint32 reconnect ++ CRLF.

Definition id_field (id : Z) : string :=
  if (id =? 0)%Z then "" else "id: " ++ String_of_uint32 id ++ CRLF.

Definition event_field (event : option string) : string :=
  match event with
  | None => ""
  | Some e => "event: " ++ e ++ CRLF
  end.

End Encoder.
Import Encoder.

(** ** 32-bit unsigned arithmetic *)

Local Open Scope Z_scope.

Module SizeT.

Definition modulus : Z := 2 ^ 32.
Definition wrap (z : Z) : Z := z mod modulus.
Definition add (a b : Z) : Z := wrap (a + b).
Definition sub (a b : Z) : Z := wrap (a - b).
Definition in_range (z : Z) : Prop := 0 <= z < modulus.

End SizeT.

(** ** The transport (AsyncClient of the AsyncTCP library) *)

(** What the event source calls on its TCP connection.  [client_add c data n]
    is [c->add (data, n)]: it is offered the [n] bytes at [data] and answers
    with the number it took. *)
Class AsyncClient (T : Type) : Type := {
  client_space : T -> Z;
  client_add : T -> option string -> Z -> T * Z;
  client_canSend : T -> bool;
  client_send : T -> T;
  client_connected : T -> bool
}.

(** ** The outbound message (AsyncEventSourceMessage) *)

Module Message.

Record AsyncEventSourceMessage : Type := mk {
  _data : option string;
  _len : Z;
  _sent : Z;
  _acked : Z
}.
Definition t := AsyncEventSourceMessage.

(** The constructor; [malloc_ok] is whether [malloc (_len + 1)] returned a
    buffer. *)
Definition new (malloc_ok : bool) (data : string) (len : Z) : t :=
  if malloc_ok
  then {| _data := Some (take (Z.to_nat len) data); _len := len; _sent := 0; _acked := 0 |}
  else {| _data := None; _len := 0; _sent := 0; _acked := 0 |}.

Definition ack (m : t) (len : Z) : t * Z :=
  if (_len m <? SizeT.add (_acked m) len)%Z
  then
    let extra := SizeT.sub (SizeT.add (_acked m) len) (_len m) in
    ({| _data := _data m; _len := _len m; _sent := _sent m; _acked := _len m |}, extra)
  else
    ({| _data := _data m; _len := _len m; _sent := _sent m;
        _acked := SizeT.add (_acked m) len |}, 0%Z).

Definition send {T} `{AsyncClient T} (m : t) (client : T) : t * T * Z :=
  let len := SizeT.sub (_len m) (_sent m) in
  if (client_space client <? len)%Z then (m, client, 0%Z)
  else
    let '(client1, sent) := client_add client (_data m) len in
    let client2 := if client_canSend client1 then client_send client1 else client1 in
    ({| _data := _data m; _len := _len m;
        _sent := SizeT.add (_sent m) sent; _acked := _acked m |}, client2, sent).

(** Modelled from the spec: [finished ()] and [sent ()] are defined in
    AsyncEventSource.h, which is not among the sources; the spec has
    "isFullyAcknowledged: true when ackedOffset == length", and a message is
    sent when [sentOffset] has reached [length]. *)
Definition finished (m : t) : bool := (_acked m =? _len m)%Z.
Definition sent (m : t) : bool := (_sent m =? _len m)%Z.

(** The data-model invariant of the spec. *)
Definition invariant (m : t) : Prop :=
  (0 <= _acked m /\ _acked m <= _sent m /\ _sent m <= _len m)%Z.

End Message.

(** ** The client session (AsyncEventSourceClient) *)

Module Session.

(** Modelled from the spec: SSE_MAX_QUEUED_MESSAGES is defined in
    AsyncEventSource.h, which is not among the sources; the spec gives the
    cap as "a fixed cap, e.g. 32". *)
Definition SSE_MAX_QUEUED_MESSAGES : Z := 32.

Section WithClient.

Context {T : Type} `{AsyncClient T}.

(** [_client] is [None] once the transport is gone ([_onDisconnect]);
    [_messageQueue] is the linked list, front first. *)
Record AsyncEventSourceClient : Type := mk {
  _client : option T;
  _messageQueue : list Message.t;
  _lastId : Z
}.

(** Modelled from the spec: [connected ()] is defined in
    AsyncEventSource.h, which is not among the sources; a session is
    connected when it still has a transport and "the transport reports
    connected". *)
Definition connected (s : AsyncEventSourceClient) : bool :=
  match _client s with
  | None => false
  | Some c => client_connected c
  end.

(** Modelled from the spec: [packetsWaiting ()] is defined in
    AsyncEventSource.h, which is not among the sources; the "packets
    waiting" of a session are the messages in its queue. *)
Definition packetsWaiting (s : AsyncEventSourceClient) : Z :=
  Z.of_nat (List.length (_messageQueue s)).

(** The first loop of [_runQueue]:
    [while (!isEmpty () && front ()->finished ()) remove (front ())]. *)
Fixpoint remove_finished (q : list Message.t) : list Message.t :=
  match q with
  | [] => []
  | front :: rest => if Message.finished front then remove_finished rest else q
  end.

(** The second loop of [_runQueue]: every message that is not sent yet is
    offered to the transport, front to back. *)
Fixpoint send_unsent (client : T) (q : list Message.t) : T * list Message.t :=
  match q with
  | [] => (client, [])
  | i :: rest =>
      if negb (Message.sent i)
      then
        let '(i', client1, _) := Message.send i client in
        let '(client2, rest') := send_unsent client1 rest in
        (client2, i' :: rest')
      else
        let '(client2, rest') := send_unsent client rest in
        (client2, i :: rest')
  end.

(** [_runQueue], on the transport [_client] points to and the queue.  Each
    caller holds a transport: [_queueMessage] has tested [connected ()],
    and [_onAck] and [_onPoll] are callbacks of the transport itself. *)
Definition _runQueue (client : T) (q : list Message.t) : T * list Message.t :=
  send_unsent client (remove_finished q).

Definition _queueMessage (s : AsyncEventSourceClient)
           (dataMessage : option Message.t) : AsyncEventSourceClient :=
  match dataMessage with
  | None => s
  | Some m =>
      match _client s with
      | None => s                                   (* !connected (): no transport *)
      | Some client =>
          if negb (client_connected client) then s  (* !connected (): delete, return *)
          else
            let q := if SSE_MAX_QUEUED_MESSAGES <=? Z.of_nat (List.length (_messageQueue s))
                     then _messageQueue s           (* too many messages: delete *)
                     else (_messageQueue s ++ [m])%list in
            if client_canSend client
            then
              let '(client', q') := _runQueue client q in
              {| _client := Some client'; _messageQueue := q'; _lastId := _lastId s |}
            else {| _client := Some client; _messageQueue := q; _lastId := _lastId s |}
      end
  end.

(** The loop of [_onAck]:
    [while (len && !isEmpty ()) { len = front ()->ack (len); if (front ()->finished ()) remove (front ()); }].
    [None] means that [fuel] turns were not enough to leave the loop. *)
Fixpoint ack_loop (fuel : nat) (len : Z) (q : list Message.t) : option (list Message.t) :=
  match fuel with
  | O => None
  | S fuel' =>
      if len =? 0 then Some q
      else
        match q with
        | [] => Some q
        | front :: rest =>
            let '(front', len') := Message.ack front len in
            if Message.finished front'
            then ack_loop fuel' len' rest
            else ack_loop fuel' len' (front' :: rest)
        end
  end.

(** A message that is not removed has taken all of [len], so the loop is
    left at the next test: two turns more than the queue has entries are
    enough ([ack_loop_total]). *)
Definition ack_fuel (q : list Message.t) : nat := S (S (List.length q)).

(** [_onAck (len, time)]; the transport that calls back is [_client]. *)
Definition _onAck (s : AsyncEventSourceClient) (len : Z) : AsyncEventSourceClient :=
  match _client s with
  | None => s
  | Some client =>
      let q := match ack_loop (ack_fuel (_messageQueue s)) len (_messageQueue s) with
               | Some q => q
               | None => _messageQueue s
               end in
      let '(client', q') := _runQueue client q in
      {| _client := Some client'; _messageQueue := q'; _lastId := _lastId s |}
  end.

Definition _onPoll (s : AsyncEventSourceClient) : AsyncEventSourceClient :=
  match _client s with
  | None => s
  | Some client =>
      match _messageQueue s with
      | [] => s
      | _ :: _ =>
          let '(client', q') := _runQueue client (_messageQueue s) in
          {| _client := Some client'; _messageQueue := q'; _lastId := _lastId s |}
      end
  end.

(** [write (message, len)]: [malloc_ok] is the outcome of the message
    constructor's allocation. *)
Definition write (malloc_ok : bool) (s : AsyncEventSourceClient)
           (message : string) (len : Z) : AsyncEventSourceClient :=
  _queueMessage s (Some (Message.new malloc_ok message len)).

(** [send (message, event, id, reconnect)] of the session. *)
Definition send (malloc_line : nat -> bool) (malloc_ok : bool)
           (s : AsyncEventSourceClient)
           (message event : option string) (id reconnect : Z)
  : AsyncEventSourceClient :=
  let ev := generateEventMessage malloc_line message event id reconnect in
  _queueMessage s (Some (Message.new malloc_ok ev (Z.of_nat (String.length ev)))).

End WithClient.

Arguments AsyncEventSourceClient T : clear implicits.

End Session.

(** ** The broadcast hub (AsyncEventSource) *)

Module Hub.

Section WithClient.

Context {T : Type} `{AsyncClient T}.

(** Only the session list takes part in what follows (the url, the
    connect callback and the credentials do not). *)
Record AsyncEventSource : Type := mk {
  _clients : list (Session.AsyncEventSourceClient T)
}.

Definition _addClient (h : AsyncEventSource)
           (client : Session.AsyncEventSourceClient T) : AsyncEventSource :=
  {| _clients := (_clients h ++ [client])%list |}.

(** The loop of [send]: [malloc_ok i] is the outcome of the allocation for
    the [i]-th listed session. *)
Fixpoint write_all (malloc_ok : nat -> bool) (i : nat) (ev : string)
         (cs : list (Session.AsyncEventSourceClient T))
  : list (Session.AsyncEventSourceClient T) :=
  match cs with
  | [] => []
  | c :: rest =>
      (if Session.connected c
       then Session.write (malloc_ok i) c ev (Z.of_nat (String.length ev))
       else c)
      :: write_all malloc_ok (S i) ev rest
  end.

Definition send (malloc_line malloc_ok : nat -> bool) (h : AsyncEventSource)
           (message event : option string) (id reconnect : Z) : AsyncEventSource :=
  let ev := generateEventMessage malloc_line message event id reconnect in
  {| _clients := write_all malloc_ok 0 ev (_clients h) |}.

(** The loop of [avgPacketsWaiting]: [(aql, nConnectedClients)]. *)
Fixpoint waiting (cs : list (Session.AsyncEventSourceClient T)) (acc : Z * Z) : Z * Z :=
  match cs with
  | [] => acc
  | c :: rest =>
      waiting rest
        (if Session.connected c
         then (SizeT.add (fst acc) (Session.packetsWaiting c), SizeT.add (snd acc) 1)
         else acc)
  end.

(** [avgPacketsWaiting]; [None] is the integer division by zero, which is
    undefined in C++ and traps on the ESP32. *)
Definition avgPacketsWaiting (h : AsyncEventSource) : option Z :=
  match _clients h with
  | [] => Some 0
  | _ :: _ =>
      let '(aql, nConnectedClients) := waiting (_clients h) (0, 0) in
      if nConnectedClients =? 0 then None
      else Some (SizeT.add aql (nConnectedClients / 2) / nConnectedClients)
  end.

Definition count (h : AsyncEventSource) : Z :=
  Z.of_nat (List.length (List.filter Session.connected (_clients h))).

End WithClient.

Arguments AsyncEventSource T : clear implicits.

End Hub.

(** ** Reading a frame back *)

Module Decoder.

(** The lines of a frame: the pieces in front of each ["\r\n"], and what is
    left after the last one when that is not empty.  [cur] is the line read
    so far. *)
Fixpoint frame_lines (cur frame : string) : list string :=
  match frame with
  | EmptyString => if is_empty cur then [] else [cur]
  | String a rest =>
      if Ascii.eqb a CR
      then
        match rest with
        | String b rest' =>
            if Ascii.eqb b LF
            then cur :: frame_lines "" rest'
            else frame_lines (cur ++ String a "") rest
        | EmptyString => frame_lines (cur ++ String a "") rest
        end
      else frame_lines (cur ++ String a "") rest
  end.

(** The payload of a [data: ] line; [None] for any other line. *)
Definition payload (line : string) : option string :=
  if String.prefix "data: " line then Some (drop 6 line) else None.

Fixpoint payloads (lines : list string) : list string :=
  match lines with
  | [] => []
  | l :: rest =>
      match payload l with
      | Some p => p :: payloads rest
      | None => payloads rest
      end
  end.

(** The payloads of the [data: ] lines of a frame, in order. *)
Definition data_payloads (frame : string) : list string :=
  payloads (frame_lines "" frame).

(** Rejoining with a line terminator is [String.concat]. *)
Definition rejoin (terminator : string) (lines : list string) : string :=
  String.concat terminator lines.

(** The three line terminators the encoder splits on. *)
Definition terminator (t : string) : Prop :=
  t = String LF "" \/ t = String CR "" \/ t = CRLF.

(** A message ending in a line break loses it: a last line that is empty
    and not the only one is not sent. *)
Definition only_empty (lines : list string) : bool :=
  match lines with
  | [e] => is_empty e
  | _ => false
  end.

Fixpoint sent_lines (lines : list string) : list string :=
  match lines with
  | [] => []
  | l :: rest => if only_empty rest then [l] else l :: sent_lines rest
  end.

(** The [data: ] lines and the closing blank line of a frame. *)
Fixpoint data_block (lines : list string) : string :=
  match lines with
  | [] => CRLF
  | l :: rest => "data: " ++ l ++ CRLF ++ data_block rest
  end.

End Decoder.

(** ** Byte counts of a queue *)

Module Queue.

(** Bytes of the queue that are not acknowledged yet. *)
Fixpoint unacked (q : list Message.t) : Z :=
  match q with
  | [] => 0
  | m :: rest => (Message._len m - Message._acked m) + unacked rest
  end.

(** Bytes of the queue, acknowledged or not. *)
Fixpoint bytes (q : list Message.t) : Z :=
  match q with
  | [] => 0
  | m :: rest => Message._len m + bytes rest
  end.

(** Bytes of the queue marked acknowledged. *)
Fixpoint acked (q : list Message.t) : Z :=
  match q with
  | [] => 0
  | m :: rest => Message._acked m + acked rest
  end.

(** A message whose acknowledged offset is within its length. *)
Definition acked_in_length (m : Message.t) : Prop :=
  0 <= Message._acked m <= Message._len m.

(** The buffers of a queue are allocated side by side in one 32-bit address
    space: their lengths add up to less than [2^32]. *)
Definition fits (q : list Message.t) : Prop :=
  Forall acked_in_length q /\ bytes q < SizeT.modulus.

(** Two messages that differ in their sent offset at most. *)
Definition same_but_sent (m m' : Message.t) : Prop :=
  Message._data m' = Message._data m /\
  Message._len m' = Message._len m /\
  Message._acked m' = Message._acked m.

(** The spec's redistribution of [len] acknowledged bytes, front to back:
    a message takes what it still needs, "the surplus is applied to the next
    message in queue order", and a message that is fully acknowledged leaves
    the queue. *)
Fixpoint redistribute (len : Z) (q : list Message.t) : list Message.t :=
  match q with
  | [] => []
  | m :: rest =>
      if len =? 0 then q
      else
        let needed := Message._len m - Message._acked m in
        if needed <=? len then redistribute (len - needed) rest
        else {| Message._data := Message._data m; Message._len := Message._len m;
                Message._sent := Message._sent m;
                Message._acked := Message._acked m + len |} :: rest
  end.

Definition sum (counts : list Z) : Z := fold_right Z.add 0 counts.

(** A session whose queue is no longer than the cap. *)
Definition within_cap {T} `{AsyncClient T} (s : Session.AsyncEventSourceClient T) : Prop :=
  Z.of_nat (List.length (Session._messageQueue s)) <= Session.SSE_MAX_QUEUED_MESSAGES.

(** The copy of a frame that [write] queues: the whole frame, nothing sent,
    nothing acknowledged. *)
Definition copy_of (ev : string) : Message.t :=
  {| Message._data := Some ev; Message._len := Z.of_nat (String.length ev);
     Message._sent := 0; Message._acked := 0 |}.

(** [_onAck] for each byte count of a list, one call after the other. *)
Definition acknowledge_all {T} `{AsyncClient T}
           (s : Session.AsyncEventSourceClient T) (counts : list Z)
  : Session.AsyncEventSourceClient T :=
  fold_left Session._onAck counts s.

End Queue.

(** ** A transport to run the model on *)

Module Tcp.

(** A connection with [room] bytes free in its send buffer; [taken] records
    what it accepted.  [add] takes what fits, as AsyncTCP's does. *)
Record conn : Type := mk {
  up : bool;
  room : Z;
  taken : list string
}.

Definition space (c : conn) : Z := if up c then room c else 0.

Definition add (c : conn) (data : option string) (size : Z) : conn * Z :=
  match data with
  | None => (c, 0)
  | Some d =>
      if (size =? 0) || (space c =? 0) then (c, 0)
      else
        let will_send := Z.min (space c) size in
        ({| up := up c; room := room c - will_send;
            taken := (taken c ++ [take (Z.to_nat will_send) d])%list |}, will_send)
  end.

#[global] Instance conn_client : AsyncClient conn := {
  client_space := space;
  client_add := add;
  client_canSend := fun c => 0 <? space c;
  client_send := fun c => c;
  client_connected := up
}.

End Tcp.

(** ** Hub states that can arise *)

Module Reach.

Section WithClient.

Context {T : Type} `{AsyncClient T}.

(** One event of the single event loop: a session is admitted (its
    constructor registers it), an event is broadcast, the transport of a
    listed session changes its state, or a listed session's disconnect
    callback removes it. *)
Inductive step : Hub.AsyncEventSource T -> Hub.AsyncEventSource T -> Prop :=
| step_admit h c lastId :
    step h (Hub._addClient h
              {| Session._client := Some c; Session._messageQueue := [];
                 Session._lastId := lastId |})
| step_send h malloc_line malloc_ok message event id reconnect :
    step h (Hub.send malloc_line malloc_ok h message event id reconnect)
| step_transport before s c' after :
    Session._client s <> None ->
    step {| Hub._clients := (before ++ s :: after)%list |}
         {| Hub._clients :=
              (before ++ {| Session._client := Some c';
                            Session._messageQueue := Session._messageQueue s;
                            Session._lastId := Session._lastId s |} :: after)%list |}
| step_disconnect before s after :
    step {| Hub._clients := (before ++ s :: after)%list |}
         {| Hub._clients := (before ++ after)%list |}.

Inductive reachable : Hub.AsyncEventSource T -> Prop :=
| reach_new : reachable {| Hub._clients := [] |}
| reach_step h h' : reachable h -> step h h' -> reachable h'.

End WithClient.

End Reach.

(** ** Concrete states *)

Module Examples.

(** A fully sent message of 20 bytes, 10 of them acknowledged. *)
Definition half_acked : Message.t :=
  {| Message._data := Some "retry: 3000 id: 5 ok"; Message._len := 20;
     Message._sent := 20; Message._acked := 10 |}.

(** A message of 10 bytes that is queued and not sent yet. *)
Definition unsent : Message.t := Message.new true "data: hi  " 10.

(** A message of length zero, as the constructor leaves it when its
    allocation fails. *)
Definition empty : Message.t := Message.new false "data: hi  " 10.

(** A live connection with [room] bytes free, and one that is closed. *)
Definition live (room : Z) : Tcp.conn :=
  {| Tcp.up := true; Tcp.room := room; Tcp.taken := [] |}.
Definition closed : Tcp.conn :=
  {| Tcp.up := false; Tcp.room := 0; Tcp.taken := [] |}.

(** A queue at the cap: 31 unsent messages behind one of length zero. *)
Definition full_queue : list Message.t := empty :: List.repeat unsent 31.

(** A queue at the cap with nothing acknowledged. *)
Definition stalled_queue : list Message.t := List.repeat unsent 32.

Definition session (c : Tcp.conn) (q : list Message.t)
  : Session.AsyncEventSourceClient Tcp.conn :=
  {| Session._client := Some c; Session._messageQueue := q; Session._lastId := 0 |}.

(** A hub with one connected session whose queue is at the cap and whose
    transport has no room, and one with a connected and a closed session. *)
Definition hub_full : Hub.AsyncEventSource Tcp.conn :=
  {| Hub._clients := [session (live 0) stalled_queue] |}.
Definition hub_two : Hub.AsyncEventSource Tcp.conn :=
  {| Hub._clients := [session (live 0) []; session closed [unsent]] |}.

(** A hub whose only session has a transport that is not connected any
    more, its disconnect callback not having run yet. *)
Definition hub_closing : Hub.AsyncEventSource Tcp.conn :=
  {| Hub._clients := [session closed []] |}.

End Examples.

(** ** Messages with any mixture of line breaks *)

Module Lines.

(** The message without its ['\r'] and ['\n'] characters. *)
Fixpoint remove_breaks (s : string) : string :=
  match s with
  | EmptyString => EmptyString
  | String a rest => if plain a then String a (remove_breaks rest) else remove_breaks rest
  end.

(** The last character of the message is ['\r'] or ['\n']. *)
Fixpoint ends_in_break (s : string) : bool :=
  match s with
  | EmptyString => false
  | String a rest => if is_empty rest then negb (plain a) else ends_in_break rest
  end.

(** The first line break of a string, read character by character: where it
    starts and where the next line starts; a ['\r'] directly followed by
    ['\n'], or a ['\n'] directly followed by ['\r'], is one break. *)
Fixpoint first_break (s : string) : option (nat * nat) :=
  match s with
  | EmptyString => None
  | String a rest =>
      if plain a
      then match first_break rest with
           | Some (lineEnd, nextLine) => Some (S lineEnd, S nextLine)
           | None => None
           end
      else
        match rest with
        | String b _ =>
            if negb (plain b) && negb (Ascii.eqb a b) then Some (O, 2%nat) else Some (O, 1%nat)
        | EmptyString => Some (O, 1%nat)
        end
  end.

(** No allocation succeeds. *)
Definition never : nat -> bool := fun _ => false.

End Lines.

(** ** Counting over the sessions of a hub *)

Module Stats.

Section WithClient.

Context {T : Type} `{AsyncClient T}.

(** The messages queued on the connected sessions, all together. *)
Fixpoint waiting_total (cs : list (Session.AsyncEventSourceClient T)) : Z :=
  match cs with
  | [] => 0
  | c :: rest =>
      (if Session.connected c then Session.packetsWaiting c else 0) + waiting_total rest
  end.

(** The number of connected sessions. *)
Fixpoint connected_total (cs : list (Session.AsyncEventSourceClient T)) : Z :=
  match cs with
  | [] => 0
  | c :: rest => (if Session.connected c then 1 else 0) + connected_total rest
  end.

End WithClient.

End Stats.

(** ** Arduino's String, as far as the header file uses it *)

Module WString.

(** [s.indexOf (ch)]: the position of the first [ch], -1 when there is
    none. *)
Definition indexOf (s : string) (ch : ascii) : Z :=
  match strchr s ch with
  | Some i => Z.of_nat i
  | None => -1
  end.

(** [s.substring (left, right)]: the bounds are swapped when they are the
    wrong way round, a start at or beyond the end gives the empty string, and
    an end beyond the end is the end. *)
Definition substring (s : string) (left_ right_ : nat) : string :=
  let '(first, last) :=
    if (right_ <? left_)%nat then (right_, left_) else (left_, right_) in
  if (String.length s <=? first)%nat then EmptyString
  else take (Nat.min last (String.length s) - first) (drop first s).

(** [s.substring (beginIndex)]. *)
Definition substring_from (s : string) (beginIndex : nat) : string :=
  substring s beginIndex (String.length s).

End WString.

(** ** Headers, rewrites and handlers (AsyncWebServer_WT32_ETH01.h) *)

Module Web.

Record AsyncWebHeader : Type := mkHeader {
  header_name : string;
  header_value : string
}.

(** [AsyncWebHeader (const String &data)]; [None] is a String without a
    buffer, for which [!data] holds. *)
Definition parseHeader (data : option string) : AsyncWebHeader :=
  match data with
  | None => {| header_name := ""; header_value := "" |}
  | Some data =>
      let index := WString.indexOf data ":" in
      if index <? 0 then {| header_name := ""; header_value := "" |}
      else {| header_name := WString.substring data 0 (Z.to_nat index);
              header_value := WString.substring_from data (Z.to_nat (index + 2)) |}
  end.

(** [AsyncWebHeader::toString]. *)
Definition toString (h : AsyncWebHeader) : string :=
  header_name h ++ ": " ++ header_value h ++ CRLF.

(** What the handlers read of a request. *)
Record Request : Type := mkRequest {
  request_method : Z;
  request_url : string
}.

Record AsyncWebRewrite : Type := mkRewrite {
  _from : string;
  _toUrl : string;
  _params : string;
  rewrite_filter : option (Request -> bool)
}.

(** [AsyncWebRewrite (from, to)]: the query string of [to] is split off at
    the first ['?'], unless that is its first character. *)
Definition newRewrite (from to : string) : AsyncWebRewrite :=
  let index := WString.indexOf to "?" in
  if 0 <? index
  then {| _from := from;
          _toUrl := WString.substring to 0 (Z.to_nat index);
          _params := WString.substring_from to (Z.to_nat (index + 1));
          rewrite_filter := None |}
  else {| _from := from; _toUrl := to; _params := ""; rewrite_filter := None |}.

(** [filter] and [match] of a rewrite. *)
Definition rewriteFilter (r : AsyncWebRewrite) (request : Request) : bool :=
  match rewrite_filter r with
  | None => true
  | Some f => f request
  end.

Definition rewriteMatch (r : AsyncWebRewrite) (request : Request) : bool :=
  String.eqb (_from r) (request_url request) && rewriteFilter r request.

(** The credentials of a handler; [AsyncWebHandler ()] starts with both
    empty. *)
Record AsyncWebHandler : Type := mkHandler {
  _username : string;
  _password : string
}.

Definition newHandler : AsyncWebHandler := {| _username := ""; _password := "" |}.

Definition setAuthentication (h : AsyncWebHandler) (username password : string)
  : AsyncWebHandler :=
  {| _username := username; _password := password |}.

(** What [AsyncEventSource::handleRequest] does with a request:
    [authenticate] is [request->authenticate (username, password)]. *)
Inductive Reply : Type :=
| requestAuthentication
| sendEventSourceResponse.

Definition handleRequest (authenticate : Request -> string -> string -> bool)
           (h : AsyncWebHandler) (request : Request) : Reply :=
  if (negb (String.eqb (_username h) "") && negb (String.eqb (_password h) ""))
     && negb (authenticate request (_username h) (_password h))
  then requestAuthentication
  else sendEventSourceResponse.

End Web.

(** ** The lock (AsyncWebSynchronization.h) *)

Module Lock.

(** [_lock] is the binary semaphore (true: it can be taken); [_lockedBy] the
    task that holds the lock, a task being known by the address of its
    control block. *)
Record AsyncWebLock : Type := mk {
  _lock : bool;
  _lockedBy : option nat
}.

(** The constructor creates the semaphore, which starts empty, and gives
    it. *)
Definition new : AsyncWebLock := {| _lock := true; _lockedBy := None |}.

(** [lock ()] called by the task [pxCurrentTCB]; [None]: the task waits in
    [xSemaphoreTake (_lock, portMAX_DELAY)] for the semaphore. *)
Definition lock (pxCurrentTCB : nat) (l : AsyncWebLock) : option (bool * AsyncWebLock) :=
  if match _lockedBy l with
     | Some task => negb (Nat.eqb task pxCurrentTCB)
     | None => true
     end
  then
    if _lock l
    then Some (true, {| _lock := false; _lockedBy := Some pxCurrentTCB |})
    else None
  else Some (false, l).

(** [unlock ()]: giving a semaphore that is there already changes nothing. *)
Definition unlock (l : AsyncWebLock) : AsyncWebLock :=
  {| _lock := true; _lockedBy := None |}.

(** A guard is the lock it holds, or NULL: [true] when it took the lock. *)
Definition AsyncWebLockGuard : Type := bool.

Definition newGuard (pxCurrentTCB : nat) (l : AsyncWebLock)
  : option (AsyncWebLockGuard * AsyncWebLock) :=
  match lock pxCurrentTCB l with
  | Some (taken, l') => Some (taken, l')
  | None => None
  end.

Definition deleteGuard (g : AsyncWebLockGuard) (l : AsyncWebLock) : AsyncWebLock :=
  if g then unlock l else l.

(** [n] guards made one inside the other by one task, innermost first in the
    result. *)
Fixpoint nest (n : nat) (pxCurrentTCB : nat) (l : AsyncWebLock)
  : option (list AsyncWebLockGuard * AsyncWebLock) :=
  match n with
  | O => Some ([], l)
  | S n' =>
      match newGuard pxCurrentTCB l with
      | Some (g, l1) =>
          match nest n' pxCurrentTCB l1 with
          | Some (gs, l2) => Some ((gs ++ [g])%list, l2)
          | None => None
          end
      | None => None
      end
  end.

(** The guards of a list leave their scopes, in order. *)
Definition leave (gs : list AsyncWebLockGuard) (l : AsyncWebLock) : AsyncWebLock :=
  fold_left (fun l g => deleteGuard g l) gs l.

Definition held_by (task : nat) (l : AsyncWebLock) : Prop :=
  _lock l = false /\ _lockedBy l = Some task.

End Lock.

(** ** Admitting a session (AsyncEventSourceResponse::_ack and the
    constructor of AsyncEventSourceClient) *)

Module Admission.

(** [isspace] of the C locale. *)
Definition isspace (a : ascii) : bool :=
  let n := nat_of_ascii a in
  (n =? 32)%nat || ((9 <=? n)%nat && (n <=? 13)%nat).

Fixpoint skip_space (s : string) : string :=
  match s with
  | String a rest => if isspace a then skip_space rest else s
  | EmptyString => s
  end.

Definition digit (a : ascii) : option Z :=
  let n := nat_of_ascii a in
  if (48 <=? n)%nat && (n <=? 57)%nat then Some (Z.of_nat (n - 48)) else None.

(** The value of the leading decimal digits of [s], after [acc]. *)
Fixpoint digits (acc : Z) (s : string) : Z :=
  match s with
  | String a rest =>
      match digit a with
      | Some d => digits (10 * acc + d) rest
      | None => acc
      end
  | EmptyString => acc
  end.

(** C's [atoi]: white space, an optional sign, decimal digits up to the
    first other character; [None] when the value is not an [int], which the
    C standard leaves undefined. *)
Definition atoi (s : string) : option Z :=
  let s := skip_space s in
  let '(negative, s) :=
    match s with
    | String "-" rest => (true, rest)
    | String "+" rest => (false, rest)
    | _ => (false, s)
    end in
  let value := if negative then - digits 0 s else digits 0 s in
  if (- 2 ^ 31 <=? value) && (value <? 2 ^ 31) then Some value else None.

Section WithClient.

Context {T : Type} `{AsyncClient T}.

(** The constructor of AsyncEventSourceClient for a request on the
    connection [client]; [lastEventId] is the value of the request's
    Last-Event-ID header, if it has one.  The hub has no connect callback.
    [None]: [atoi] is undefined. *)
Definition newClient (h : Hub.AsyncEventSource T) (client : T)
           (lastEventId : option string) : option (Hub.AsyncEventSource T) :=
  match
    match lastEventId with
    | None => Some 0
    | Some value =>
        match atoi value with
        | Some i => Some (SizeT.wrap i)
        | None => None
        end
    end
  with
  | Some lastId =>
      Some (Hub._addClient h {| Session._client := Some client;
                                Session._messageQueue := [];
                                Session._lastId := lastId |})
  | None => None
  end.

(** [AsyncEventSourceResponse::_ack (request, len, time)], which returns 0:
    its effect on the hub. *)
Definition _ack (h : Hub.AsyncEventSource T) (client : T)
           (lastEventId : option string) (len : Z) : option (Hub.AsyncEventSource T) :=
  if len =? 0 then Some h else newClient h client lastEventId.

End WithClient.

End Admission.

(** ** The life of a hub *)

Module Events.

Section WithClient.

Context {T : Type} `{AsyncClient T}.

(** A message whose acknowledged offset is within its length and whose
    buffer, if it has one, holds as many bytes as its length says. *)
Definition message_ok (m : Message.t) : Prop :=
  0 <= Message._acked m <= Message._len m
  /\ match Message._data m with
     | Some d => Z.of_nat (String.length d) = Message._len m
     | None => Message._len m = 0
     end.

Definition session_ok (s : Session.AsyncEventSourceClient T) : Prop :=
  Session._client s <> None
  /\ Queue.within_cap s
  /\ Forall message_ok (Session._messageQueue s).

(** What can happen to a hub: the acknowledgment of a response head admits a
    session, the application broadcasts or sends to one session, a transport
    acknowledges or polls, a transport changes its state, a session is
    removed on disconnect. *)
Inductive step : Hub.AsyncEventSource T -> Hub.AsyncEventSource T -> Prop :=
| step_ack_head h client lastEventId len h' :
    Admission._ack h client lastEventId len = Some h' ->
    step h h'
| step_broadcast h malloc_line malloc_ok message event id reconnect :
    step h (Hub.send malloc_line malloc_ok h message event id reconnect)
| step_send before s after malloc_line malloc_ok message event id reconnect :
    step {| Hub._clients := (before ++ s :: after)%list |}
         {| Hub._clients :=
              (before
               ++ Session.send malloc_line malloc_ok s message event id reconnect
               :: after)%list |}
| step_onAck before s after len :
    step {| Hub._clients := (before ++ s :: after)%list |}
         {| Hub._clients := (before ++ Session._onAck s len :: after)%list |}
| step_onPoll before s after :
    step {| Hub._clients := (before ++ s :: after)%list |}
         {| Hub._clients := (before ++ Session._onPoll s :: after)%list |}
| step_transport before s client' after :
    Session._client s <> None ->
    step {| Hub._clients := (before ++ s :: after)%list |}
         {| Hub._clients :=
              (before ++ {| Session._client := Some client';
                            Session._messageQueue := Session._messageQueue s;
                            Session._lastId := Session._lastId s |} :: after)%list |}
| step_onDisconnect before s after :
    step {| Hub._clients := (before ++ s :: after)%list |}
         {| Hub._clients := (before ++ after)%list |}.

Inductive reachable : Hub.AsyncEventSource T -> Prop :=
| reach_new : reachable {| Hub._clients := [] |}
| reach_next h h' : reachable h -> step h h' -> reachable h'.

End WithClient.

End Events.

(** * Properties *)

(** ** Strings *)

Section Strings.

Lemma append_nil_r (s : string) : s ++ "" = s.
Proof. induction s as [|a s IH]; simpl; [reflexivity | now rewrite IH]. Qed.

Lemma append_assoc (s1 s2 s3 : string) : (s1 ++ s2) ++ s3 = s1 ++ (s2 ++ s3).
Proof. induction s1 as [|a s1 IH]; simpl; [reflexivity | now rewrite IH]. Qed.

Lemma length_append (s1 s2 : string) :
  String.length (s1 ++ s2) = (String.length s1 + String.length s2)%nat.
Proof. induction s1 as [|a s1 IH]; simpl; [reflexivity | now rewrite IH]. Qed.

Lemma length_drop (n : nat) (s : string) :
  String.length (drop n s) = (String.length s - n)%nat.
Proof.
  revert s; induction n as [|n IH]; intros [|a s]; simpl; auto.
Qed.

Lemma take_append (l rest : string) : take (String.length l) (l ++ rest) = l.
Proof. induction l as [|a l IH]; simpl; [now destruct rest | now rewrite IH]. Qed.

Lemma drop_append (l rest : string) : drop (String.length l) (l ++ rest) = rest.
Proof. induction l as [|a l IH]; simpl; [now destruct rest | exact IH]. Qed.

Lemma is_empty_true (s : string) : is_empty s = true -> s = "".
Proof. destruct s; simpl; [reflexivity | discriminate]. Qed.

Lemma strchr_lt (s : string) (c : ascii) (i : nat) :
  strchr s c = Some i -> (i < String.length s)%nat.
Proof.
  revert i; induction s as [|a s IH]; simpl; intros i; [discriminate|].
  destruct (Ascii.eqb a c).
  - intros [= <-]; lia.
  - destruct (strchr s c) as [j|]; simpl; [|discriminate].
    intros [= <-]. specialize (IH j eq_refl). lia.
Qed.

End Strings.

(** ** The encoder *)

Section EncoderFacts.

(** The next line starts at least one character further on, within the
    message or at its end. *)
Lemma next_break_bounds (s : string) (lineEnd nextLine : nat) :
  next_break s = Some (lineEnd, nextLine) ->
  (lineEnd < nextLine <= String.length s)%nat.
Proof.
  unfold next_break.
  destruct (strchr s LF) as [n|] eqn:En; destruct (strchr s CR) as [r|] eqn:Er;
    try apply strchr_lt in En; try apply strchr_lt in Er.
  - destruct (r <? n)%nat eqn:C; [apply Nat.ltb_lt in C | apply Nat.ltb_ge in C].
    + destruct (n =? r + 1)%nat eqn:D; intros [= <- <-]; lia.
    + destruct (r =? n + 1)%nat eqn:D; intros [= <- <-]; lia.
  - intros [= <- <-]; lia.
  - intros [= <- <-]; lia.
  - discriminate.
Qed.

(** The loop is left within [S (length lineStart)] turns, whatever the
    allocator does. *)
Lemma data_lines_total (fuel : nat) :
  forall malloc_ok k lineStart ev,
    (String.length lineStart < fuel)%nat ->
    exists frame, data_lines fuel malloc_ok k lineStart ev = Some frame.
Proof.
  induction fuel as [|fuel IH]; intros malloc_ok k lineStart ev Hlen; [lia|].
  simpl. destruct (next_break lineStart) as [[lineEnd nextLine]|] eqn:E.
  - destruct (is_empty (drop nextLine lineStart)) eqn:Em; [eauto|].
    apply IH. apply next_break_bounds in E.
    rewrite length_drop. lia.
  - eauto.
Qed.

(** More fuel does not change the frame. *)
Lemma data_lines_fuel (fuel : nat) :
  forall fuel' malloc_ok k lineStart ev frame,
    (fuel <= fuel')%nat ->
    data_lines fuel malloc_ok k lineStart ev = Some frame ->
    data_lines fuel' malloc_ok k lineStart ev = Some frame.
Proof.
  induction fuel as [|fuel IH]; intros fuel' malloc_ok k lineStart ev frame Hle; [discriminate|].
  destruct fuel' as [|fuel']; [lia|]. simpl.
  destruct (next_break lineStart) as [[lineEnd nextLine]|]; [|auto].
  destruct (is_empty (drop nextLine lineStart)); [auto|].
  apply IH. lia.
Qed.

(** So [generateEventMessage] always leaves its loop. *)
Lemma generateEventMessage_loop_exits malloc_ok (m ev : string) :
  exists frame, data_lines (S (String.length m)) malloc_ok 0 m ev = Some frame.
Proof. apply data_lines_total. lia. Qed.

Lemma generateEventMessage_fields malloc_ok (event : option string) (id reconnect : Z) :
  generateEventMessage malloc_ok None event id reconnect
  = retry_field reconnect ++ id_field id ++ event_field event.
Proof.
  unfold generateEventMessage, retry_field, id_field, event_field.
  unfold CRLF.
  destruct (reconnect =? 0), (id =? 0), event; cbn [append];
    repeat (rewrite ?append_nil_r, ?append_assoc; cbn [append]); reflexivity.
Qed.

End EncoderFacts.

(** C1.  The two reference scenarios of the wire format: the message [hello]
    alone is encoded as [data: hello\r\n\r\n], and the message [line1\nline2]
    with event [update], id 5 and retry 3000 as
    [retry: 3000\r\nid: 5\r\nevent: update\r\ndata: line1\r\ndata: line2\r\n\r\n]. *)
Theorem generateEventMessage_reference_frames :
  generateEventMessage always (Some "hello") None 0 0
  = "data: hello" ++ CRLF ++ CRLF
  /\ generateEventMessage always (Some ("line1" ++ String LF "line2")) (Some "update") 5 3000
     = "retry: 3000" ++ CRLF ++ "id: 5" ++ CRLF ++ "event: update" ++ CRLF
       ++ "data: line1" ++ CRLF ++ "data: line2" ++ CRLF ++ CRLF.
Proof. split; reflexivity. Qed.

(** ** The outbound message *)

Section MessageFacts.

Import Message.

Lemma wrap_small (z : Z) : 0 <= z < SizeT.modulus -> SizeT.wrap z = z.
Proof. intros Hz. unfold SizeT.wrap. now apply Z.mod_small. Qed.

Lemma wrap_range (z : Z) : 0 <= SizeT.wrap z < SizeT.modulus.
Proof. unfold SizeT.wrap. apply Z.mod_pos_bound. reflexivity. Qed.

(** [ack] never leaves the acknowledged offset beyond the length, wrapped
    sum or not. *)
Lemma ack_acked_in_length (m : t) (len : Z) :
  0 <= _len m ->
  0 <= _acked (fst (ack m len)) <= _len m.
Proof.
  intros Hlen. unfold ack.
  pose proof (wrap_range (_acked m + len)) as Hw. unfold SizeT.add.
  destruct (_len m <? SizeT.wrap (_acked m + len)) eqn:C; simpl.
  - lia.
  - apply Z.ltb_ge in C. lia.
Qed.

Lemma ack_keeps (m : t) (len : Z) :
  _data (fst (ack m len)) = _data m /\
  _len (fst (ack m len)) = _len m /\
  _sent (fst (ack m len)) = _sent m.
Proof. unfold ack. destruct (_len m <? SizeT.add (_acked m) len); simpl; auto. Qed.

(** Without wrap-around [ack] is the capped sum and its surplus. *)
Lemma ack_exact (m : t) (len : Z) :
  0 <= _len m -> 0 <= _acked m -> 0 <= len ->
  _acked m + len < SizeT.modulus ->
  _acked (fst (ack m len)) = Z.min (_acked m + len) (_len m) /\
  snd (ack m len) = Z.max (_acked m + len - _len m) 0.
Proof.
  intros Hlen Hacked Hl Hsum. unfold ack, SizeT.add, SizeT.sub.
  rewrite (wrap_small (_acked m + len)) by lia.
  destruct (_len m <? _acked m + len) eqn:C; simpl.
  - apply Z.ltb_lt in C. rewrite wrap_small by lia. lia.
  - apply Z.ltb_ge in C. lia.
Qed.

End MessageFacts.

(** C3, as the code has it.  For every message with offsets that are not
    negative and every byte count [len] whose sum with the acknowledged offset
    fits in 32 bits, [ack] sets the acknowledged offset to
    [min (acked + len, length)], returns [max (acked + len - length, 0)],
    returns 0 whenever [acked + len <= length], and leaves the buffer, the
    length and the sent offset alone. *)
Theorem ack_caps_and_returns_surplus (m : Message.t) (len : Z) :
  0 <= Message._len m -> 0 <= Message._acked m -> 0 <= len ->
  Message._acked m + len < SizeT.modulus ->
  Message._acked (fst (Message.ack m len))
  = Z.min (Message._acked m + len) (Message._len m)
  /\ snd (Message.ack m len) = Z.max (Message._acked m + len - Message._len m) 0
  /\ (Message._acked m + len <= Message._len m -> snd (Message.ack m len) = 0)
  /\ Message._data (fst (Message.ack m len)) = Message._data m
  /\ Message._len (fst (Message.ack m len)) = Message._len m
  /\ Message._sent (fst (Message.ack m len)) = Message._sent m.
Proof.
  intros Hlen Hacked Hl Hsum.
  destruct (ack_exact m len Hlen Hacked Hl Hsum) as [Ha Hs].
  destruct (ack_keeps m len) as (Hd & Hn & Ht).
  repeat split; auto.
  intros Hle. rewrite Hs. lia.
Qed.

Lemma ack_caps_and_returns_surplus_witness :
  Message._acked (fst (Message.ack Examples.half_acked 15)) = 20
  /\ snd (Message.ack Examples.half_acked 15) = 5.
Proof.
  destruct (ack_caps_and_returns_surplus Examples.half_acked 15) as (Ha & Hs & _);
    [vm_compute; discriminate | vm_compute; discriminate | lia | reflexivity | ].
  split; [exact Ha | exact Hs].
Defined.

(** C3, as stated, fails where the 32-bit sum wraps: with 10 of 20 bytes
    acknowledged, [ack (2^32 - 5)] computes the sum 5, finds it within the
    length, stores it and returns 0, where the capped sum is the offset 20 and
    the surplus [2^32 - 15]. *)
Lemma ack_wraps_around :
  SizeT.in_range 4294967291
  /\ Message.invariant Examples.half_acked
  /\ Message.ack Examples.half_acked 4294967291
     = ({| Message._data := Message._data Examples.half_acked; Message._len := 20;
           Message._sent := 20; Message._acked := 5 |}, 0)
  /\ Message._acked (fst (Message.ack Examples.half_acked 4294967291))
     <> Z.min (Message._acked Examples.half_acked + 4294967291)
              (Message._len Examples.half_acked)
  /\ snd (Message.ack Examples.half_acked 4294967291)
     <> Z.max (Message._acked Examples.half_acked + 4294967291
               - Message._len Examples.half_acked) 0.
Proof.
  repeat split; try reflexivity; vm_compute; discriminate.
Qed.

Section MessageSend.

Context {T : Type} `{AsyncClient T}.
Import Message.

(** What [send] does with the transport's answer. *)
Lemma send_unfold (m : t) (client : T) :
  send m client =
  if client_space client <? SizeT.sub (_len m) (_sent m) then (m, client, 0)
  else
    ({| _data := _data m; _len := _len m;
        _sent := SizeT.add (_sent m)
                   (snd (client_add client (_data m) (SizeT.sub (_len m) (_sent m))));
        _acked := _acked m |},
     (let client1 := fst (client_add client (_data m) (SizeT.sub (_len m) (_sent m))) in
      if client_canSend client1 then client_send client1 else client1),
     snd (client_add client (_data m) (SizeT.sub (_len m) (_sent m)))).
Proof.
  unfold send.
  destruct (client_space client <? SizeT.sub (_len m) (_sent m)); [reflexivity|].
  destruct (client_add client (_data m) (SizeT.sub (_len m) (_sent m))); reflexivity.
Qed.

Lemma send_keeps (m : t) (client : T) :
  _data (fst (fst (send m client))) = _data m /\
  _len (fst (fst (send m client))) = _len m /\
  _acked (fst (fst (send m client))) = _acked m.
Proof.
  rewrite send_unfold.
  destruct (client_space client <? SizeT.sub (_len m) (_sent m)); simpl; auto.
Qed.

Lemma remaining_exact (m : t) :
  0 <= _sent m <= _len m -> SizeT.in_range (_len m) ->
  SizeT.sub (_len m) (_sent m) = _len m - _sent m.
Proof.
  intros Hsent [Hl0 Hl1]. unfold SizeT.sub. apply wrap_small. lia.
Qed.

(** C5.  [send] is whole or nothing.  For every message whose sent offset is
    within its length and every transport: when the transport has less room
    than the [length - sentOffset] bytes still to send, nothing is offered to
    it, 0 is returned and the message and the transport are as before;
    otherwise the transport is offered, in one [add], the count of all bytes
    still to send, the sent offset advances by the count the transport took,
    that count is returned and the acknowledged offset is as before; so a
    transport that takes what it is offered leaves the message fully sent. *)
Theorem send_whole_or_nothing (m : t) (client : T) :
  0 <= _sent m <= _len m -> SizeT.in_range (_len m) ->
  (client_space client < _len m - _sent m ->
   send m client = (m, client, 0))
  /\ (_len m - _sent m <= client_space client ->
      exists client1 taken,
        client_add client (_data m) (_len m - _sent m) = (client1, taken)
        /\ snd (send m client) = taken
        /\ snd (fst (send m client))
           = (if client_canSend client1 then client_send client1 else client1)
        /\ _acked (fst (fst (send m client))) = _acked m
        /\ _len (fst (fst (send m client))) = _len m
        /\ _data (fst (fst (send m client))) = _data m
        /\ (0 <= taken <= _len m - _sent m ->
            _sent (fst (fst (send m client))) = _sent m + taken)
        /\ (taken = _len m - _sent m ->
            _sent (fst (fst (send m client))) = _len m)).
Proof.
  intros Hsent Hrange.
  pose proof (remaining_exact m Hsent Hrange) as Hrem.
  destruct Hrange as [Hl0 Hl1].
  rewrite send_unfold, Hrem. split.
  - intros Hlt. apply Z.ltb_lt in Hlt. now rewrite Hlt.
  - intros Hge. apply Z.ltb_ge in Hge. rewrite Hge.
    destruct (client_add client (_data m) (_len m - _sent m)) as [client1 taken] eqn:E.
    exists client1, taken. simpl. repeat split; auto.
    + intros Ht. unfold SizeT.add. apply wrap_small. lia.
    + intros ->. unfold SizeT.add. rewrite wrap_small; lia.
Qed.

(** [send] keeps the invariant when the transport takes no more than it is
    offered. *)
Lemma send_invariant (m : t) (client : T) :
  invariant m -> SizeT.in_range (_len m) ->
  0 <= snd (client_add client (_data m) (_len m - _sent m)) <= _len m - _sent m ->
  invariant (fst (fst (send m client))).
Proof.
  intros Hinv Hrange Htaken.
  destruct Hinv as (Ha & Has & Hsl).
  pose proof (remaining_exact m ltac:(lia) Hrange) as Hrem.
  destruct Hrange as [Hl0 Hl1].
  rewrite send_unfold, Hrem.
  destruct (client_space client <? _len m - _sent m); simpl.
  - repeat split; assumption.
  - unfold invariant; simpl. unfold SizeT.add. rewrite wrap_small; lia.
Qed.

End MessageSend.

Lemma send_whole_or_nothing_witness :
  Message.send Examples.unsent (Examples.live 4) = (Examples.unsent, Examples.live 4, 0)
  /\ Message._sent (fst (fst (Message.send Examples.unsent (Examples.live 64)))) = 10.
Proof.
  assert (Hinv : 0 <= Message._sent Examples.unsent <= Message._len Examples.unsent)
    by (vm_compute; intuition discriminate).
  assert (Hrange : SizeT.in_range (Message._len Examples.unsent))
    by (vm_compute; intuition discriminate).
  split.
  - apply (proj1 (send_whole_or_nothing Examples.unsent (Examples.live 4) Hinv Hrange)).
    reflexivity.
  - destruct (proj2 (send_whole_or_nothing Examples.unsent (Examples.live 64) Hinv Hrange))
      as (client1 & taken & Hadd & _ & _ & _ & _ & _ & _ & Hall);
      [vm_compute; discriminate|].
    apply Hall. vm_compute in Hadd. now injection Hadd as _ <-.
Defined.

(** C7, as the code has it.  The constructor yields a message within
    [0 <= acked <= sent <= length]; [send] keeps a message within it under
    any room of the transport, given a transport that takes no more than it
    is offered; [ack], for any byte count, keeps [0 <= acked <= length] and
    the sent offset, and keeps [acked <= sent] when the bytes acknowledged
    were sent before ([acked + len <= sent]) or the message is fully sent. *)
Theorem message_operations_keep_offsets (T : Type) (C : AsyncClient T) :
  (forall malloc_ok data len,
      0 <= len -> Message.invariant (Message.new malloc_ok data len))
  /\ (forall (m : Message.t) (client : T),
         Message.invariant m -> SizeT.in_range (Message._len m) ->
         0 <= snd (client_add client (Message._data m) (Message._len m - Message._sent m))
           <= Message._len m - Message._sent m ->
         Message.invariant (fst (fst (Message.send m client))))
  /\ (forall (m : Message.t) (len : Z),
         Message.invariant m -> SizeT.in_range (Message._len m) ->
         0 <= Message._acked (fst (Message.ack m len)) <= Message._len m
         /\ Message._sent (fst (Message.ack m len)) = Message._sent m
         /\ Message._len (fst (Message.ack m len)) = Message._len m
         /\ (0 <= len ->
             Message._acked m + len <= Message._sent m \/ Message._sent m = Message._len m ->
             Message.invariant (fst (Message.ack m len)))).
Proof.
  split; [|split].
  - intros [|] data len Hlen; unfold Message.invariant; simpl; lia.
  - intros m client. apply send_invariant.
  - intros m len (Ha & Has & Hsl) [Hl0 Hl1].
    pose proof (ack_acked_in_length m len ltac:(lia)) as Hin.
    destruct (ack_keeps m len) as (Hd & Hn & Ht).
    split; [exact Hin|]. split; [exact Ht|]. split; [exact Hn|].
    intros Hlen [Hsum | Hfull]; unfold Message.invariant; rewrite Hn, Ht; [|lia].
    split; [lia|]. split; [|lia].
    unfold Message.ack, SizeT.add. rewrite wrap_small by lia.
    destruct (Message._len m <? Message._acked m + len) eqn:Hcmp; simpl;
      [apply Z.ltb_lt in Hcmp|]; lia.
Qed.

Lemma message_operations_keep_offsets_witness :
  Message.invariant (Message.new true "data: hi" 8)
  /\ Message.invariant (fst (fst (Message.send Examples.unsent (Examples.live 64))))
  /\ Message.invariant (fst (Message.ack Examples.half_acked 7)).
Proof.
  destruct (message_operations_keep_offsets Tcp.conn Tcp.conn_client) as (Hnew & Hsend & Hack).
  split; [|split].
  - apply Hnew. lia.
  - apply Hsend; vm_compute; intuition discriminate.
  - apply (Hack Examples.half_acked 7); vm_compute; intuition discriminate.
Defined.

(** C7, as stated, fails for [ack]: it never looks at the sent offset.  A
    message that is queued and not sent yet, with offsets 0 <= 0 <= 10, has
    the acknowledged offset 3 beyond its sent offset 0 after [ack (3)]. *)
Lemma ack_passes_sent_offset :
  Message.invariant Examples.unsent
  /\ fst (Message.ack Examples.unsent 3)
     = {| Message._data := Message._data Examples.unsent; Message._len := 10;
          Message._sent := 0; Message._acked := 3 |}
  /\ ~ Message.invariant (fst (Message.ack Examples.unsent 3)).
Proof.
  split; [|split].
  - vm_compute; intuition discriminate.
  - reflexivity.
  - vm_compute. intros (_ & Hle & _). apply Hle. reflexivity.
Qed.

(** ** The queue of a session *)

Section QueueFacts.

Context {T : Type} `{AsyncClient T}.
Import Message Session Queue.

Lemma finished_iff (m : Message.t) : finished m = true <-> _acked m = _len m.
Proof. unfold finished. apply Z.eqb_eq. Qed.

(** A message that [ack] leaves unfinished has taken all of [len]. *)
Lemma ack_unfinished (m : Message.t) (len : Z) :
  finished (fst (ack m len)) = false -> snd (ack m len) = 0.
Proof.
  unfold ack. destruct (_len m <? SizeT.add (_acked m) len); simpl; [|reflexivity].
  unfold finished; simpl. rewrite Z.eqb_refl. discriminate.
Qed.

(** The acknowledge loop is left within [ack_fuel q] turns. *)
Lemma ack_loop_total (q : list Message.t) :
  forall fuel len,
    (S (List.length q) < fuel)%nat ->
    exists q', ack_loop fuel len q = Some q'.
Proof.
  induction q as [|front rest IH]; intros fuel len Hfuel.
  - destruct fuel; [lia|]. simpl. destruct (len =? 0); eauto.
  - destruct fuel as [|fuel]; [lia|]. simpl in *.
    destruct (len =? 0); [eauto|].
    destruct (ack front len) as [front' len'] eqn:E.
    destruct (finished front') eqn:F.
    + apply IH. lia.
    + assert (len' = 0) as ->.
      { change len' with (snd (front', len')). rewrite <- E.
        apply ack_unfinished. now rewrite E. }
      destruct fuel; [lia|]. simpl. eauto.
Qed.

Lemma remove_finished_unacked (q : list Message.t) :
  unacked (remove_finished q) = unacked q.
Proof.
  induction q as [|m q IH]; simpl; [reflexivity|].
  destruct (finished m) eqn:F; [|reflexivity].
  apply finished_iff in F. rewrite IH. lia.
Qed.

Lemma remove_finished_in_length (q : list Message.t) :
  Forall acked_in_length q -> Forall acked_in_length (remove_finished q).
Proof.
  induction 1 as [|m q Hm Hq IH]; simpl; [constructor|].
  destruct (finished m); [exact IH | now constructor].
Qed.

Lemma remove_finished_bytes (q : list Message.t) :
  Forall acked_in_length q -> bytes (remove_finished q) <= bytes q.
Proof.
  induction 1 as [|m q Hm Hq IH]; simpl; [lia|].
  destruct (finished m); simpl; [|lia]. unfold acked_in_length in Hm. lia.
Qed.

Lemma remove_finished_all (q : list Message.t) :
  Forall acked_in_length q -> unacked q = 0 -> remove_finished q = [].
Proof.
  induction 1 as [|m q Hm Hq IH]; simpl; [reflexivity|].
  intros Hu. unfold acked_in_length in Hm.
  assert (0 <= unacked q).
  { clear -Hq. induction Hq as [|m' q' Hm' _ IH']; simpl; [lia|].
    unfold acked_in_length in Hm'. lia. }
  assert (F : finished m = true) by (apply finished_iff; lia).
  rewrite F. apply IH. lia.
Qed.

Lemma unacked_nonneg (q : list Message.t) :
  Forall acked_in_length q -> 0 <= unacked q.
Proof.
  induction 1 as [|m q Hm _ IH]; simpl; [lia|]. unfold acked_in_length in Hm. lia.
Qed.

Lemma bytes_split (q : list Message.t) : bytes q = Queue.acked q + unacked q.
Proof. induction q as [|m q IH]; simpl; lia. Qed.

Lemma acked_nonneg (q : list Message.t) :
  Forall acked_in_length q -> 0 <= Queue.acked q.
Proof.
  induction 1 as [|m q Hm _ IH]; simpl; [lia|]. unfold acked_in_length in Hm. lia.
Qed.

(** The second loop of [_runQueue] touches sent offsets only. *)
Lemma send_unsent_same (q : list Message.t) :
  forall client, Forall2 same_but_sent q (snd (send_unsent client q)).
Proof.
  induction q as [|m q IH]; intros client; simpl; [constructor|].
  destruct (negb (Message.sent m)).
  - destruct (Message.send m client) as [[m' client1] n] eqn:E.
    specialize (IH client1). destruct (send_unsent client1 q) as [client2 rest']. simpl in *.
    constructor; [|exact IH].
    pose proof (send_keeps m client) as K. rewrite E in K. exact K.
  - specialize (IH client). destruct (send_unsent client q) as [client2 rest']. simpl in *.
    constructor; [|exact IH]. unfold same_but_sent; auto.
Qed.

Lemma same_but_sent_measures (q q' : list Message.t) :
  Forall2 same_but_sent q q' ->
  unacked q' = unacked q /\ bytes q' = bytes q /\ Queue.acked q' = Queue.acked q
  /\ (Forall acked_in_length q -> Forall acked_in_length q')
  /\ List.length q' = List.length q.
Proof.
  induction 1 as [|m m' q q' (Hd & Hl & Ha) _ (IHu & IHb & IHa & IHf & IHn)]; simpl.
  - repeat split; auto.
  - rewrite Hl, Ha, IHu, IHb, IHa, IHn. repeat split; auto.
    intros Hf. inversion Hf; subst. constructor; [|auto].
    unfold acked_in_length in *. rewrite Hl, Ha. assumption.
Qed.

Lemma send_unsent_nil (client : T) : send_unsent client [] = (client, []).
Proof. reflexivity. Qed.

End QueueFacts.

Section AckFacts.

Context {T : Type} `{AsyncClient T}.
Import Message Session Queue.

Lemma redistribute_zero (q : list Message.t) : redistribute 0 q = q.
Proof. destruct q; reflexivity. Qed.

(** When no 32-bit sum wraps, the loop of [_onAck] is the redistribution of
    the spec. *)
Lemma ack_loop_redistribute (q : list Message.t) :
  forall fuel len,
    Forall acked_in_length q ->
    0 <= len -> len + Queue.acked q < SizeT.modulus ->
    (S (List.length q) < fuel)%nat ->
    ack_loop fuel len q = Some (redistribute len q).
Proof.
  induction q as [|m rest IH]; intros fuel len Hin Hlen Hsum Hfuel.
  - destruct fuel; [lia|]. simpl. now destruct (len =? 0).
  - destruct fuel as [|fuel]; [lia|]. simpl in Hfuel, Hsum.
    inversion Hin as [|? ? Hm Hrest]; subst.
    pose proof (acked_nonneg rest Hrest) as Hr0.
    unfold acked_in_length in Hm.
    cbn [ack_loop redistribute].
    destruct (len =? 0) eqn:Z0; [reflexivity|]. apply Z.eqb_neq in Z0.
    unfold ack, SizeT.add, SizeT.sub. rewrite (wrap_small (_acked m + len)) by lia.
    destruct (_len m <? _acked m + len) eqn:C.
    + apply Z.ltb_lt in C.
      unfold finished at 1; cbn [_acked _len]. rewrite Z.eqb_refl.
      rewrite wrap_small by lia.
      assert (L : (_len m - _acked m <=? len) = true) by (apply Z.leb_le; lia).
      rewrite L.
      replace (len - (_len m - _acked m)) with (_acked m + len - _len m) by lia.
      apply IH; auto; lia.
    + apply Z.ltb_ge in C.
      unfold finished at 1; cbn [_acked _len].
      destruct (_acked m + len =? _len m) eqn:F.
      * apply Z.eqb_eq in F.
        assert (L : (_len m - _acked m <=? len) = true) by (apply Z.leb_le; lia).
        rewrite L. replace (len - (_len m - _acked m)) with 0 by lia.
        rewrite redistribute_zero.
        destruct fuel; [lia|]. reflexivity.
      * apply Z.eqb_neq in F.
        assert (L : (_len m - _acked m <=? len) = false) by (apply Z.leb_gt; lia).
        rewrite L. destruct fuel; [lia|]. reflexivity.
Qed.

(** The redistribution marks [min (len, unacked q)] bytes more, never more
    than were outstanding. *)
Lemma redistribute_measures (q : list Message.t) :
  forall len,
    Forall acked_in_length q -> 0 <= len ->
    unacked (redistribute len q) = unacked q - Z.min len (unacked q)
    /\ Forall acked_in_length (redistribute len q)
    /\ bytes (redistribute len q) <= bytes q.
Proof.
  induction q as [|m rest IH]; intros len Hin Hlen.
  - simpl. repeat split; [lia | constructor | lia].
  - inversion Hin as [|? ? Hm Hrest]; subst.
    pose proof (unacked_nonneg rest Hrest) as Hu0.
    unfold acked_in_length in Hm.
    cbn [redistribute].
    destruct (len =? 0) eqn:Z0.
    + apply Z.eqb_eq in Z0. subst len.
      assert (0 <= unacked (m :: rest)) by (simpl; lia).
      repeat split; [lia | assumption | lia].
    + destruct (_len m - _acked m <=? len) eqn:L.
      * apply Z.leb_le in L.
        destruct (IH (len - (_len m - _acked m)) Hrest ltac:(lia)) as (Iu & If & Ib).
        repeat split; [simpl; lia | assumption | simpl; lia].
      * apply Z.leb_gt in L.
        repeat split.
        -- simpl. lia.
        -- constructor; [unfold acked_in_length; simpl; lia | assumption].
        -- simpl. lia.
Qed.

(** Wrapped or not, the loop keeps every acknowledged offset within its
    message and frees buffers only. *)
Lemma ack_loop_in_length (fuel : nat) :
  forall len q q',
    Forall acked_in_length q ->
    ack_loop fuel len q = Some q' ->
    Forall acked_in_length q' /\ bytes q' <= bytes q.
Proof.
  induction fuel as [|fuel IH]; intros len q q' Hin; [discriminate|].
  simpl. destruct (len =? 0); [intros [= <-]; split; [assumption | lia]|].
  destruct q as [|m rest]; [intros [= <-]; split; [assumption | lia]|].
  inversion Hin as [|? ? Hm Hrest]; subst. unfold acked_in_length in Hm.
  pose proof (ack_acked_in_length m len ltac:(lia)) as Ha.
  destruct (ack_keeps m len) as (_ & Hl & _).
  destruct (ack m len) as [m' len'] eqn:E. simpl in Ha, Hl.
  destruct (finished m').
  - intros Hloop. destruct (IH _ _ _ Hrest Hloop) as [If Ib].
    split; [assumption | simpl; lia].
  - intros Hloop.
    assert (Hin' : Forall acked_in_length (m' :: rest)).
    { constructor; [unfold acked_in_length; lia | assumption]. }
    destruct (IH _ _ _ Hin' Hloop) as [If Ib].
    split; [assumption | simpl in *; lia].
Qed.

(** [_onAck] in two steps: the loop, then [_runQueue]. *)
Lemma onAck_unfold (s : AsyncEventSourceClient T) (client : T) (len : Z) (q1 : list Message.t) :
  _client s = Some client ->
  ack_loop (ack_fuel (_messageQueue s)) len (_messageQueue s) = Some q1 ->
  _messageQueue (_onAck s len) = snd (send_unsent client (remove_finished q1))
  /\ _client (_onAck s len) = Some (fst (send_unsent client (remove_finished q1))).
Proof.
  intros Hc Hloop. unfold _onAck, _runQueue. rewrite Hc, Hloop.
  destruct (send_unsent client (remove_finished q1)); simpl; auto.
Qed.

(** [_onAck] with a byte count that does not wrap. *)
Lemma onAck_measures (s : AsyncEventSourceClient T) (client : T) (len : Z) :
  _client s = Some client ->
  Forall acked_in_length (_messageQueue s) ->
  0 <= len -> len + Queue.acked (_messageQueue s) < SizeT.modulus ->
  unacked (_messageQueue (_onAck s len))
  = unacked (_messageQueue s) - Z.min len (unacked (_messageQueue s))
  /\ Forall acked_in_length (_messageQueue (_onAck s len))
  /\ bytes (_messageQueue (_onAck s len)) <= bytes (_messageQueue s)
  /\ (exists client', _client (_onAck s len) = Some client').
Proof.
  intros Hc Hin Hlen Hsum.
  pose proof (ack_loop_redistribute (_messageQueue s) (ack_fuel (_messageQueue s)) len
                Hin Hlen Hsum ltac:(unfold ack_fuel; lia)) as Hloop.
  destruct (onAck_unfold s client len _ Hc Hloop) as [Hq Hc'].
  destruct (redistribute_measures (_messageQueue s) len Hin Hlen) as (Ru & Rf & Rb).
  pose proof (remove_finished_in_length _ Rf) as Ff.
  pose proof (remove_finished_bytes _ Rf) as Fb.
  pose proof (remove_finished_unacked (redistribute len (_messageQueue s))) as Fu.
  destruct (same_but_sent_measures _ _
              (send_unsent_same (remove_finished (redistribute len (_messageQueue s))) client))
    as (Su & Sb & _ & Sf & _).
  rewrite Hq. repeat split.
  - lia.
  - auto.
  - lia.
  - eauto.
Qed.

(** A byte count that covers all outstanding bytes empties the queue; what
    is left of it is dropped. *)
Lemma onAck_covers (s : AsyncEventSourceClient T) (client : T) (len : Z) :
  _client s = Some client ->
  Forall acked_in_length (_messageQueue s) ->
  unacked (_messageQueue s) <= len ->
  len + Queue.acked (_messageQueue s) < SizeT.modulus ->
  _messageQueue (_onAck s len) = [].
Proof.
  intros Hc Hin Hcover Hsum.
  pose proof (unacked_nonneg _ Hin) as Hu0.
  pose proof (ack_loop_redistribute (_messageQueue s) (ack_fuel (_messageQueue s)) len
                Hin ltac:(lia) Hsum ltac:(unfold ack_fuel; lia)) as Hloop.
  destruct (onAck_unfold s client len _ Hc Hloop) as [Hq _].
  destruct (redistribute_measures (_messageQueue s) len Hin ltac:(lia)) as (Ru & Rf & _).
  rewrite Hq, (remove_finished_all _ Rf); [reflexivity | lia].
Qed.

(** Any byte count at all. *)
Lemma onAck_in_length (s : AsyncEventSourceClient T) (len : Z) :
  Forall acked_in_length (_messageQueue s) ->
  Forall acked_in_length (_messageQueue (_onAck s len))
  /\ bytes (_messageQueue (_onAck s len)) <= bytes (_messageQueue s).
Proof.
  intros Hin. destruct (_client s) as [client|] eqn:Hc.
  - destruct (ack_loop_total (_messageQueue s) (ack_fuel (_messageQueue s)) len
                ltac:(unfold ack_fuel; lia)) as [q1 Hloop].
    destruct (onAck_unfold s client len _ Hc Hloop) as [Hq _].
    destruct (ack_loop_in_length _ _ _ _ Hin Hloop) as [Lf Lb].
    pose proof (remove_finished_in_length _ Lf) as Ff.
    pose proof (remove_finished_bytes _ Lf) as Fb.
    destruct (same_but_sent_measures _ _ (send_unsent_same (remove_finished q1) client))
      as (_ & Sb & _ & Sf & _).
    rewrite Hq. split; [auto | lia].
  - unfold _onAck. rewrite Hc. split; [assumption | lia].
Qed.

End AckFacts.

Section AcknowledgeAll.

Context {T : Type} `{AsyncClient T}.
Import Message Session Queue.

Lemma sum_nonneg (counts : list Z) :
  Forall (fun c => 0 <= c) counts -> 0 <= Queue.sum counts.
Proof. induction 1 as [|c counts Hc _ IH]; simpl; lia. Qed.

Lemma acknowledge_all_empties (counts : list Z) :
  forall s : AsyncEventSourceClient T,
    _client s <> None ->
    fits (_messageQueue s) ->
    counts <> [] ->
    Forall (fun c => 0 <= c) counts ->
    Queue.sum counts = unacked (_messageQueue s) ->
    _messageQueue (acknowledge_all s counts) = [].
Proof.
  induction counts as [|c rest IH]; intros s Hc [Hin Hfit] Hne Hpos Hsum; [congruence|].
  destruct (_client s) as [client|] eqn:Ec; [clear Hc | congruence].
  inversion Hpos as [|? ? Hc0 Hrest]; subst.
  pose proof (sum_nonneg rest Hrest) as Hr0.
  pose proof (bytes_split (_messageQueue s)) as Hsplit.
  simpl in Hsum. unfold acknowledge_all. simpl.
  destruct rest as [|c' rest'].
  - simpl in *. apply (onAck_covers s client c Ec Hin); lia.
  - destruct (onAck_measures s client c Ec Hin Hc0 ltac:(lia)) as (Mu & Mf & Mb & client' & Mc).
    apply IH.
    + rewrite Mc. discriminate.
    + split; [assumption | lia].
    + discriminate.
    + assumption.
    + rewrite Mu. lia.
Qed.

End AcknowledgeAll.

(** C4.  For every session that has its transport and whose queue is well
    formed (acknowledged offsets within the lengths, buffers together below
    [2^32] bytes): [_onAck] called with byte counts that add up to exactly the
    unacknowledged bytes of the queue, in one or more calls, leaves the queue
    empty.  Each call, with any byte count that does not wrap, is exactly the
    redistribution followed by the drain: the bytes are handed on front to
    back, the surplus of a message going to the next one ([redistribute]),
    then [_runQueue] runs on what is left; so the queue after the call holds
    the messages the redistribution left, in their order, with their
    acknowledged offsets, and [min (len, unacked)] bytes more are marked
    acknowledged, no more and no fewer.  After any call at all no message has
    more bytes marked acknowledged than it is long, so the bytes marked never
    exceed the bytes queued; and a count beyond the whole queue empties it
    and the rest is dropped. *)
Theorem onAck_exact_total_empties_queue (T : Type) (C : AsyncClient T)
        (s : Session.AsyncEventSourceClient T) (counts : list Z) :
  Session._client s <> None ->
  Queue.fits (Session._messageQueue s) ->
  counts <> [] ->
  Forall (fun c => 0 <= c) counts ->
  Queue.sum counts = Queue.unacked (Session._messageQueue s) ->
  Session._messageQueue (Queue.acknowledge_all s counts) = []
  /\ (forall len,
         0 <= len -> len + Queue.acked (Session._messageQueue s) < SizeT.modulus ->
         Session.ack_loop (Session.ack_fuel (Session._messageQueue s)) len
                          (Session._messageQueue s)
         = Some (Queue.redistribute len (Session._messageQueue s)))
  /\ (forall len client,
         Session._client s = Some client ->
         0 <= len -> len + Queue.acked (Session._messageQueue s) < SizeT.modulus ->
         Session._onAck s len
         = {| Session._client :=
                Some (fst (Session._runQueue client
                             (Queue.redistribute len (Session._messageQueue s))));
              Session._messageQueue :=
                snd (Session._runQueue client
                       (Queue.redistribute len (Session._messageQueue s)));
              Session._lastId := Session._lastId s |}
         /\ Forall2 Queue.same_but_sent
                    (Session.remove_finished
                       (Queue.redistribute len (Session._messageQueue s)))
                    (Session._messageQueue (Session._onAck s len))
         /\ Queue.unacked (Session._messageQueue (Session._onAck s len))
            = Queue.unacked (Session._messageQueue s)
              - Z.min len (Queue.unacked (Session._messageQueue s)))
  /\ (forall len,
         Forall Queue.acked_in_length (Session._messageQueue (Session._onAck s len))
         /\ Queue.acked (Session._messageQueue (Session._onAck s len))
            <= Queue.bytes (Session._messageQueue (Session._onAck s len))
         /\ Queue.bytes (Session._messageQueue (Session._onAck s len))
            <= Queue.bytes (Session._messageQueue s))
  /\ (forall len,
         Queue.unacked (Session._messageQueue s) <= len ->
         len + Queue.acked (Session._messageQueue s) < SizeT.modulus ->
         Session._messageQueue (Session._onAck s len) = []).
Proof.
  intros Hc Hfits Hne Hpos Hsum.
  split; [now apply acknowledge_all_empties|].
  destruct Hfits as [Hin Hbytes].
  split; [|split; [|split]].
  - intros len Hlen Hwrap. apply ack_loop_redistribute; auto.
  - intros len client Ec Hlen Hwrap.
    pose proof (ack_loop_redistribute (Session._messageQueue s)
                  (Session.ack_fuel (Session._messageQueue s)) len Hin Hlen Hwrap
                  ltac:(unfold Session.ack_fuel; lia)) as Hloop.
    destruct (onAck_unfold s client len _ Ec Hloop) as [Hq _].
    split; [|split].
    + unfold Session._onAck. rewrite Ec, Hloop.
      now destruct (Session._runQueue client
                      (Queue.redistribute len (Session._messageQueue s))).
    + rewrite Hq. apply send_unsent_same.
    + now destruct (onAck_measures s client len Ec Hin Hlen Hwrap) as (Mu & _).
  - intros len. destruct (onAck_in_length s len Hin) as [Lf Lb].
    split; [assumption|]. split; [|assumption].
    pose proof (bytes_split (Session._messageQueue (Session._onAck s len))).
    pose proof (unacked_nonneg _ Lf). lia.
  - intros len Hcover Hwrap.
    destruct (Session._client s) as [client|] eqn:Ec; [|congruence].
    now apply (onAck_covers s client len).
Qed.

Lemma onAck_exact_total_empties_queue_witness :
  Session._messageQueue
    (Queue.acknowledge_all
       (Examples.session (Examples.live 64) [Examples.half_acked; Examples.unsent])
       [4; 16]) = []
  /\ Session._messageQueue
       (Session._onAck
          (Examples.session (Examples.live 64) [Examples.half_acked; Examples.unsent]) 12)
     = [{| Message._data := Message._data Examples.unsent; Message._len := 10;
           Message._sent := 10; Message._acked := 2 |}]
  /\ Queue.unacked
       (Session._messageQueue
          (Session._onAck
             (Examples.session (Examples.live 64) [Examples.half_acked; Examples.unsent]) 12))
     = 8.
Proof.
  destruct (onAck_exact_total_empties_queue Tcp.conn Tcp.conn_client
              (Examples.session (Examples.live 64) [Examples.half_acked; Examples.unsent])
              [4; 16]) as (Hempty & _ & Hcall & _).
  - discriminate.
  - split; [|reflexivity].
    repeat constructor; vm_compute; discriminate.
  - discriminate.
  - repeat constructor; lia.
  - reflexivity.
  - destruct (Hcall 12 (Examples.live 64) eq_refl ltac:(lia) ltac:(reflexivity))
      as (Hexact & _ & Hunacked).
    split; [exact Hempty|]. split.
    + rewrite Hexact. reflexivity.
    + rewrite Hunacked. reflexivity.
Defined.

(** ** The cap on the queue *)

Section QueueCap.

Context {T : Type} `{AsyncClient T}.
Import Message Session Queue.

Lemma remove_finished_length (q : list Message.t) :
  (List.length (remove_finished q) <= List.length q)%nat.
Proof.
  induction q as [|m q IH]; simpl; [lia|]. destruct (finished m); simpl; lia.
Qed.

Lemma runQueue_length (client : T) (q : list Message.t) :
  (List.length (snd (_runQueue client q)) <= List.length q)%nat.
Proof.
  unfold _runQueue.
  destruct (same_but_sent_measures _ _ (send_unsent_same (remove_finished q) client))
    as (_ & _ & _ & _ & Hn).
  pose proof (remove_finished_length q). lia.
Qed.

Lemma ack_loop_length (fuel : nat) :
  forall len q q',
    ack_loop fuel len q = Some q' -> (List.length q' <= List.length q)%nat.
Proof.
  induction fuel as [|fuel IH]; intros len q q'; [discriminate|].
  simpl. destruct (len =? 0); [intros [= <-]; lia|].
  destruct q as [|m rest]; [intros [= <-]; lia|].
  destruct (ack m len) as [m' len']. destruct (finished m'); intros Hloop.
  - apply IH in Hloop. simpl. lia.
  - apply IH in Hloop. simpl in *. lia.
Qed.

Lemma queueMessage_within_cap (s : AsyncEventSourceClient T) (dataMessage : option Message.t) :
  within_cap s -> within_cap (_queueMessage s dataMessage).
Proof.
  unfold within_cap, _queueMessage. intros Hcap.
  destruct dataMessage as [m|]; [|assumption].
  destruct (_client s) as [client|]; [|assumption].
  destruct (negb (client_connected client)); [assumption|].
  set (q := if SSE_MAX_QUEUED_MESSAGES <=? Z.of_nat (List.length (_messageQueue s))
            then _messageQueue s else (_messageQueue s ++ [m])%list).
  assert (Hq : Z.of_nat (List.length q) <= SSE_MAX_QUEUED_MESSAGES).
  { subst q. destruct (SSE_MAX_QUEUED_MESSAGES <=? Z.of_nat (List.length (_messageQueue s))) eqn:C.
    - assumption.
    - apply Z.leb_gt in C. rewrite length_app. simpl. lia. }
  destruct (client_canSend client); simpl; [|assumption].
  pose proof (runQueue_length client q) as Hr.
  destruct (_runQueue client q) as [client' q']. simpl in *. lia.
Qed.

Lemma onAck_within_cap (s : AsyncEventSourceClient T) (len : Z) :
  within_cap s -> within_cap (_onAck s len).
Proof.
  unfold within_cap, _onAck. intros Hcap.
  destruct (_client s) as [client|]; [|assumption].
  set (q := match ack_loop (ack_fuel (_messageQueue s)) len (_messageQueue s) with
            | Some q => q
            | None => _messageQueue s
            end).
  assert (Hq : (List.length q <= List.length (_messageQueue s))%nat).
  { subst q. destruct (ack_loop (ack_fuel (_messageQueue s)) len (_messageQueue s)) eqn:E;
      [now apply ack_loop_length in E | lia]. }
  pose proof (runQueue_length client q) as Hr.
  destruct (_runQueue client q) as [client' q']. simpl in *. lia.
Qed.

Lemma onPoll_within_cap (s : AsyncEventSourceClient T) :
  within_cap s -> within_cap (_onPoll s).
Proof.
  unfold within_cap, _onPoll. intros Hcap.
  destruct (_client s) as [client|]; [|assumption].
  destruct (_messageQueue s) as [|m q] eqn:E; [now rewrite E|].
  pose proof (runQueue_length client (m :: q)) as Hr.
  destruct (_runQueue client (m :: q)) as [client' q']. simpl in *. lia.
Qed.

(** At the cap the offered message is not taken; what happens to the queue
    is the drain of [_runQueue], if the transport can send. *)
Lemma queueMessage_at_cap (s : AsyncEventSourceClient T) (client : T) (m : Message.t) :
  _client s = Some client ->
  client_connected client = true ->
  SSE_MAX_QUEUED_MESSAGES <= Z.of_nat (List.length (_messageQueue s)) ->
  _queueMessage s (Some m)
  = if client_canSend client
    then {| _client := Some (fst (_runQueue client (_messageQueue s)));
            _messageQueue := snd (_runQueue client (_messageQueue s));
            _lastId := _lastId s |}
    else s.
Proof.
  intros Hc Hup Hfull. unfold _queueMessage. rewrite Hc, Hup. simpl.
  apply Z.leb_le in Hfull. rewrite Hfull.
  destruct (client_canSend client).
  - destruct (_runQueue client (_messageQueue s)); reflexivity.
  - destruct s; simpl in *. now rewrite Hc.
Qed.

End QueueCap.

(** C6, as the code has it.  Every operation of a session keeps the queue
    within SSE_MAX_QUEUED_MESSAGES.  When a message is offered to a connected
    session whose queue is at the cap, it is not taken and the session keeps
    its transport; if the transport cannot send, the session is exactly as
    before; if it can, the queue is drained: the entries left are the old
    ones in their order without the fully acknowledged ones at the front, and
    they differ from the old ones in their sent offsets at most. *)
Theorem queue_never_exceeds_cap (T : Type) (C : AsyncClient T)
        (s : Session.AsyncEventSourceClient T) :
  (Queue.within_cap s ->
   (forall dataMessage, Queue.within_cap (Session._queueMessage s dataMessage))
   /\ (forall malloc_ok message len, Queue.within_cap (Session.write malloc_ok s message len))
   /\ (forall malloc_line malloc_ok message event id reconnect,
          Queue.within_cap (Session.send malloc_line malloc_ok s message event id reconnect))
   /\ (forall len, Queue.within_cap (Session._onAck s len))
   /\ Queue.within_cap (Session._onPoll s))
  /\ (forall client m,
         Session._client s = Some client ->
         client_connected client = true ->
         Session.SSE_MAX_QUEUED_MESSAGES <= Z.of_nat (List.length (Session._messageQueue s)) ->
         Session._client (Session._queueMessage s (Some m)) <> None
         /\ (client_canSend client = false -> Session._queueMessage s (Some m) = s)
         /\ Forall2 Queue.same_but_sent
                    (if client_canSend client
                     then Session.remove_finished (Session._messageQueue s)
                     else Session._messageQueue s)
                    (Session._messageQueue (Session._queueMessage s (Some m)))).
Proof.
  split.
  - intros Hcap. repeat split; intros.
    + now apply queueMessage_within_cap.
    + now apply queueMessage_within_cap.
    + now apply queueMessage_within_cap.
    + now apply onAck_within_cap.
    + now apply onPoll_within_cap.
  - intros client m Hc Hup Hfull.
    rewrite (queueMessage_at_cap s client m Hc Hup Hfull).
    destruct (client_canSend client) eqn:E.
    + simpl. split; [discriminate|]. split; [discriminate|].
      unfold Session._runQueue. apply send_unsent_same.
    + split; [rewrite Hc; discriminate|]. split; [reflexivity|].
      clear. induction (Session._messageQueue s); constructor; auto.
      unfold Queue.same_but_sent. auto.
Qed.

Lemma queue_never_exceeds_cap_witness :
  Session._queueMessage (Examples.session (Examples.live 0) Examples.stalled_queue)
                        (Some Examples.unsent)
  = Examples.session (Examples.live 0) Examples.stalled_queue.
Proof.
  destruct (queue_never_exceeds_cap Tcp.conn Tcp.conn_client
              (Examples.session (Examples.live 0) Examples.stalled_queue)) as [_ Hcap].
  destruct (Hcap (Examples.live 0) Examples.unsent) as (_ & Hsame & _);
    [reflexivity | reflexivity | vm_compute; discriminate | ].
  apply Hsame. reflexivity.
Defined.

(** C6, as stated, fails when the transport can send and the front of the full
    queue is fully acknowledged already (here a message of length zero, which
    is finished from the start): the offered message is dropped, then
    [_runQueue] removes the front, and the queue holds 31 entries, not 32. *)
Lemma queue_at_cap_is_drained :
  List.length (Session._messageQueue
                 (Examples.session (Examples.live 64) Examples.full_queue)) = 32%nat
  /\ Session.connected (Examples.session (Examples.live 64) Examples.full_queue) = true
  /\ List.length (Session._messageQueue
                    (Session._queueMessage
                       (Examples.session (Examples.live 64) Examples.full_queue)
                       (Some Examples.unsent))) = 31%nat
  /\ Session._messageQueue
       (Session._queueMessage
          (Examples.session (Examples.live 64) Examples.full_queue)
          (Some Examples.unsent))
     <> Examples.full_queue.
Proof.
  repeat split; try reflexivity.
  vm_compute. discriminate.
Qed.

(** ** The broadcast *)

Section Broadcast.

Context {T : Type} `{AsyncClient T}.
Import Session Queue.

Lemma take_all (s : string) : take (String.length s) s = s.
Proof. induction s as [|a s IH]; simpl; [reflexivity | now rewrite IH]. Qed.

(** The message [write] makes of a whole frame. *)
Lemma new_copy (ev : string) :
  Message.new true ev (Z.of_nat (String.length ev)) = copy_of ev.
Proof.
  unfold Message.new, copy_of. now rewrite Nat2Z.id, take_all.
Qed.

Lemma write_all_nth (malloc_ok : nat -> bool) (ev : string)
      (cs : list (AsyncEventSourceClient T)) :
  forall k i c,
    nth_error cs i = Some c ->
    nth_error (Hub.write_all malloc_ok k ev cs) i
    = Some (if connected c
            then write (malloc_ok (k + i)%nat) c ev (Z.of_nat (String.length ev))
            else c).
Proof.
  induction cs as [|c0 cs IH]; intros k i c; [destruct i; discriminate|].
  destruct i as [|i]; simpl.
  - intros [= ->]. now rewrite Nat.add_0_r.
  - intros Hnth. rewrite (IH (S k) i c Hnth). now rewrite Nat.add_succ_r.
Qed.

Lemma write_all_length (malloc_ok : nat -> bool) (ev : string)
      (cs : list (AsyncEventSourceClient T)) :
  forall k, List.length (Hub.write_all malloc_ok k ev cs) = List.length cs.
Proof. induction cs as [|c cs IH]; intros k; simpl; [reflexivity | now rewrite IH]. Qed.

(** Below the cap the offered message goes to the end of the queue. *)
Lemma queueMessage_below_cap (s : AsyncEventSourceClient T) (client : T) (m : Message.t) :
  _client s = Some client ->
  client_connected client = true ->
  Z.of_nat (List.length (_messageQueue s)) < SSE_MAX_QUEUED_MESSAGES ->
  _queueMessage s (Some m)
  = if client_canSend client
    then {| _client := Some (fst (_runQueue client (_messageQueue s ++ [m])%list));
            _messageQueue := snd (_runQueue client (_messageQueue s ++ [m])%list);
            _lastId := _lastId s |}
    else {| _client := Some client;
            _messageQueue := (_messageQueue s ++ [m])%list;
            _lastId := _lastId s |}.
Proof.
  intros Hc Hup Hbelow. unfold _queueMessage. rewrite Hc, Hup. simpl.
  apply Z.leb_gt in Hbelow. rewrite Hbelow.
  destruct (client_canSend client); [|reflexivity].
  destruct (_runQueue client (_messageQueue s ++ [m])%list); reflexivity.
Qed.

Lemma connected_client (s : AsyncEventSourceClient T) :
  connected s = true ->
  exists client, _client s = Some client /\ client_connected client = true.
Proof.
  unfold connected. destruct (_client s) as [client|]; [eauto | discriminate].
Qed.

End Broadcast.

(** C8, as the code has it.  A broadcast encodes the frame once and goes
    through the listed sessions in order: a session that does not report
    connected is left as it is; on each session that does, [write] is called
    once with that frame.  The call puts one copy of the frame (its own
    buffer, nothing sent, nothing acknowledged) at the end of a queue that is
    below the cap, and none into a queue at the cap; after that the session
    drains its queue if its transport can send. *)
Theorem broadcast_writes_once_per_connected_session (T : Type) (C : AsyncClient T)
        (h : Hub.AsyncEventSource T) (malloc_line malloc_ok : nat -> bool)
        (message event : option string) (id reconnect : Z) :
  let ev := generateEventMessage malloc_line message event id reconnect in
  let h' := Hub.send malloc_line malloc_ok h message event id reconnect in
  List.length (Hub._clients h') = List.length (Hub._clients h)
  /\ forall i c,
      nth_error (Hub._clients h) i = Some c ->
      exists c',
        nth_error (Hub._clients h') i = Some c'
        /\ (Session.connected c = false -> c' = c)
        /\ (Session.connected c = true ->
            exists client,
              Session._client c = Some client
              /\ c' = Session.write (malloc_ok i) c ev (Z.of_nat (String.length ev))
              /\ (Z.of_nat (List.length (Session._messageQueue c)) < Session.SSE_MAX_QUEUED_MESSAGES ->
                  malloc_ok i = true ->
                  Session._messageQueue c'
                  = if client_canSend client
                    then snd (Session._runQueue client
                                (Session._messageQueue c ++ [Queue.copy_of ev])%list)
                    else (Session._messageQueue c ++ [Queue.copy_of ev])%list)
              /\ (Session.SSE_MAX_QUEUED_MESSAGES <= Z.of_nat (List.length (Session._messageQueue c)) ->
                  Session._messageQueue c'
                  = if client_canSend client
                    then snd (Session._runQueue client (Session._messageQueue c))
                    else Session._messageQueue c)).
Proof.
  intros ev h'. subst h'. unfold Hub.send. fold ev. simpl. split.
  - apply write_all_length.
  - intros i c Hnth. rewrite (write_all_nth malloc_ok ev _ 0%nat i c Hnth). simpl.
    eexists. split; [reflexivity|]. split.
    + intros ->. reflexivity.
    + intros Hup. rewrite Hup.
      destruct (connected_client c Hup) as (client & Hc & Hlive).
      exists client. split; [assumption|]. split; [reflexivity|]. split.
      * intros Hbelow Hok. unfold Session.write. rewrite Hok, new_copy.
        rewrite (queueMessage_below_cap c client _ Hc Hlive Hbelow).
        now destruct (client_canSend client).
      * intros Hfull. unfold Session.write.
        rewrite (queueMessage_at_cap c client _ Hc Hlive Hfull).
        now destruct (client_canSend client).
Qed.

Lemma broadcast_writes_once_per_connected_session_witness :
  Hub._clients (Hub.send always always Examples.hub_two (Some "hello") None 0 0)
  = [Examples.session (Examples.live 0) [Queue.copy_of ("data: hello" ++ CRLF ++ CRLF)];
     Examples.session Examples.closed [Examples.unsent]].
Proof.
  pose proof (broadcast_writes_once_per_connected_session Tcp.conn Tcp.conn_client
                Examples.hub_two always always (Some "hello") None 0 0) as [Hlen Hnth].
  destruct (Hnth 0%nat _ eq_refl) as (c0 & H0 & _ & Hup0).
  destruct (Hnth 1%nat _ eq_refl) as (c1 & H1 & Hdown1 & _).
  destruct (Hup0 eq_refl) as (client & Hc & Hwrite & _).
  rewrite (Hdown1 eq_refl) in H1.
  remember (Hub._clients (Hub.send always always Examples.hub_two (Some "hello") None 0 0))
    as cs eqn:Ecs.
  destruct cs as [|x [|y [|z cs]]]; try discriminate Hlen.
  simpl in H0, H1. injection H0 as ->. injection H1 as ->.
  rewrite Hwrite. reflexivity.
Defined.

(** C8, as stated, fails at the cap: a connected session whose queue holds
    SSE_MAX_QUEUED_MESSAGES messages gets no copy of the broadcast; with a
    transport that has no room the hub is exactly as before. *)
Lemma broadcast_skips_full_queue :
  Forall (fun c => Session.connected c = true) (Hub._clients Examples.hub_full)
  /\ Hub.send always always Examples.hub_full (Some "hello") None 0 0 = Examples.hub_full
  /\ ~ Exists (fun c => In (Queue.copy_of ("data: hello" ++ CRLF ++ CRLF))
                           (Session._messageQueue c))
              (Hub._clients
                 (Hub.send always always Examples.hub_full (Some "hello") None 0 0)).
Proof.
  split; [|split].
  - repeat constructor.
  - reflexivity.
  - intros Hex. apply Exists_exists in Hex. destruct Hex as (c & Hc & Hin).
    vm_compute in Hc. destruct Hc as [<- | []].
    vm_compute in Hin.
    repeat (destruct Hin as [Hin | Hin]; [discriminate Hin|]). exact Hin.
Qed.

(** ** Line breaks *)

Section LineBreaks.

Lemma plain_not_break (a : ascii) :
  plain a = true -> Ascii.eqb a CR = false /\ Ascii.eqb a LF = false.
Proof.
  unfold plain. intros Hp. apply andb_prop in Hp. destruct Hp as [Hr Hn].
  split; now apply negb_true_iff.
Qed.

Lemma no_break_append (s1 s2 : string) :
  no_break (s1 ++ s2) = no_break s1 && no_break s2.
Proof.
  induction s1 as [|a s1 IH]; simpl; [reflexivity|].
  now rewrite IH, andb_assoc.
Qed.

Lemma no_break_strchr (l : string) :
  no_break l = true -> strchr l CR = None /\ strchr l LF = None.
Proof.
  induction l as [|a l IH]; simpl; [auto|].
  intros Hl. apply andb_prop in Hl. destruct Hl as [Ha Hl].
  destruct (plain_not_break a Ha) as [-> ->].
  destruct (IH Hl) as [-> ->]. auto.
Qed.

Lemma strchr_append_absent (l rest : string) (c : ascii) :
  strchr l c = None ->
  strchr (l ++ rest) c = option_map (Nat.add (String.length l)) (strchr rest c).
Proof.
  induction l as [|a l IH]; simpl.
  - intros _. now destruct (strchr rest c).
  - destruct (Ascii.eqb a c); [discriminate|].
    destruct (strchr l c) eqn:E; [discriminate|]. intros _.
    rewrite IH by reflexivity. now destruct (strchr rest c).
Qed.

Lemma drop_append_plus (l rest : string) (n : nat) :
  drop (String.length l + n) (l ++ rest) = drop n rest.
Proof. induction l as [|a l IH]; simpl; [reflexivity | exact IH]. Qed.

(** The first line of a message of lines joined by ["\n"]. *)
Lemma next_break_lf (l rest : string) :
  no_break l = true -> strchr rest CR = None ->
  next_break (l ++ String LF rest) = Some (String.length l, String.length l + 1)%nat.
Proof.
  intros Hl Hrest. destruct (no_break_strchr l Hl) as [Hr Hn].
  unfold next_break.
  rewrite (strchr_append_absent l _ LF Hn), (strchr_append_absent l _ CR Hr).
  simpl. rewrite Hrest. simpl. now rewrite Nat.add_0_r.
Qed.

(** The same for ["\r"]. *)
Lemma next_break_cr (l rest : string) :
  no_break l = true -> strchr rest LF = None ->
  next_break (l ++ String CR rest) = Some (String.length l, String.length l + 1)%nat.
Proof.
  intros Hl Hrest. destruct (no_break_strchr l Hl) as [Hr Hn].
  unfold next_break.
  rewrite (strchr_append_absent l _ LF Hn), (strchr_append_absent l _ CR Hr).
  simpl. rewrite Hrest. simpl. now rewrite Nat.add_0_r.
Qed.

(** The same for ["\r\n"]: the pair is stepped over as one break. *)
Lemma next_break_crlf (l rest : string) :
  no_break l = true ->
  next_break (l ++ String CR (String LF rest))
  = Some (String.length l, String.length l + 2)%nat.
Proof.
  intros Hl. destruct (no_break_strchr l Hl) as [Hr Hn].
  unfold next_break.
  rewrite (strchr_append_absent l _ LF Hn), (strchr_append_absent l _ CR Hr).
  simpl. rewrite Nat.add_0_r.
  assert (C : (String.length l <? String.length l + 1)%nat = true)
    by (apply Nat.ltb_lt; lia).
  rewrite C, Nat.eqb_refl. f_equal. f_equal. lia.
Qed.

(** Lines without a break, joined by a separator without [c], have no [c]. *)
Lemma concat_absent (t : string) (c : ascii) (lines : list string) :
  strchr t c = None ->
  Forall (fun l => strchr l c = None) lines ->
  strchr (String.concat t lines) c = None.
Proof.
  intros Ht. induction 1 as [|l lines Hl Hlines IH]; [reflexivity|].
  destruct lines as [|l2 rest]; [exact Hl|].
  change (String.concat t (l :: l2 :: rest)) with (l ++ t ++ String.concat t (l2 :: rest)).
  rewrite (strchr_append_absent l _ c Hl), (strchr_append_absent t _ c Ht), IH.
  reflexivity.
Qed.

Lemma concat_cons (t l l2 : string) (rest : list string) :
  String.concat t (l :: l2 :: rest) = l ++ t ++ String.concat t (l2 :: rest).
Proof. reflexivity. Qed.

(** The first line of a message of lines joined by one terminator. *)
Lemma next_break_joined (t l l2 : string) (rest : list string) :
  Decoder.terminator t ->
  no_break l = true ->
  Forall (fun x => no_break x = true) (l2 :: rest) ->
  next_break (l ++ t ++ String.concat t (l2 :: rest))
  = Some (String.length l, String.length l + String.length t)%nat.
Proof.
  intros Ht Hl Hrest.
  assert (Hcr : Forall (fun x => strchr x CR = None) (l2 :: rest)).
  { eapply Forall_impl; [|exact Hrest]. intros x Hx. now apply no_break_strchr. }
  assert (Hlf : Forall (fun x => strchr x LF = None) (l2 :: rest)).
  { eapply Forall_impl; [|exact Hrest]. intros x Hx. now apply no_break_strchr. }
  destruct Ht as [-> | [-> | ->]]; cbn [append String.length CRLF].
  - apply next_break_lf; [assumption|]. now apply concat_absent.
  - apply next_break_cr; [assumption|]. now apply concat_absent.
  - unfold CRLF. cbn [append]. now apply next_break_crlf.
Qed.

Lemma terminator_not_empty (t rest : string) :
  Decoder.terminator t -> is_empty (t ++ rest) = false.
Proof. intros [-> | [-> | ->]]; reflexivity. Qed.

(** Only the single empty line is joined to the empty string. *)
Lemma concat_empty (t : string) (lines : list string) :
  Decoder.terminator t -> lines <> [] ->
  is_empty (String.concat t lines) = Decoder.only_empty lines.
Proof.
  intros Ht Hne. destruct lines as [|l [|l2 rest]]; [congruence | reflexivity |].
  rewrite concat_cons. simpl Decoder.only_empty.
  destruct l as [|a l]; [|reflexivity]. simpl. now apply terminator_not_empty.
Qed.

End LineBreaks.

(** ** Frames of whole lines *)

Section RoundTrip.

Import Decoder.

Lemma sent_lines_cons (l l2 : string) (rest : list string) :
  only_empty (l2 :: rest) = false ->
  sent_lines (l :: l2 :: rest) = l :: sent_lines (l2 :: rest).
Proof. intros E. change (sent_lines (l :: l2 :: rest)) with
    (if only_empty (l2 :: rest) then [l] else l :: sent_lines (l2 :: rest)).
  now rewrite E.
Qed.

(** The loop on a message of lines joined by one terminator: a [data: ]
    line for each line that is sent, then the blank line. *)
Lemma data_lines_joined (t : string) (lines : list string) :
  terminator t ->
  lines <> [] ->
  Forall (fun l => no_break l = true) lines ->
  forall fuel k ev,
    (String.length (String.concat t lines) < fuel)%nat ->
    data_lines fuel always k (String.concat t lines) ev
    = Some (ev ++ data_block (sent_lines lines)).
Proof.
  intros Ht Hne Hall. induction Hall as [|l lines Hl Hlines IH]; [congruence|].
  intros fuel k ev Hfuel. destruct fuel as [|fuel]; [lia|].
  destruct lines as [|l2 rest].
  - (* the last line *)
    simpl String.concat. cbn [data_lines].
    destruct (no_break_strchr l Hl) as [Hr Hn].
    unfold next_break. rewrite Hr, Hn. reflexivity.
  - rewrite concat_cons in *. cbn [data_lines].
    rewrite (next_break_joined t l l2 rest Ht Hl Hlines).
    rewrite drop_append_plus.
    replace (drop (String.length t) (t ++ String.concat t (l2 :: rest)))
      with (String.concat t (l2 :: rest))
      by (rewrite <- (drop_append t (String.concat t (l2 :: rest))) at 1; reflexivity).
    rewrite take_append. change (always k) with true. cbv iota.
    rewrite (concat_empty t (l2 :: rest) Ht) by discriminate.
    destruct (only_empty (l2 :: rest)) eqn:E.
    + change (sent_lines (l :: l2 :: rest)) with
        (if only_empty (l2 :: rest) then [l] else l :: sent_lines (l2 :: rest)).
      rewrite E. cbn [data_block]. now rewrite !append_assoc.
    + rewrite (sent_lines_cons l l2 rest E).
      rewrite IH; [|discriminate|].
      * cbn [data_block]. now rewrite !append_assoc.
      * rewrite !length_append in Hfuel.
        assert (1 <= String.length t)%nat
          by (destruct Ht as [-> | [-> | ->]]; simpl; lia).
        lia.
Qed.

(** Reading a line back. *)
Lemma frame_lines_line (l : string) :
  no_break l = true ->
  forall cur rest,
    frame_lines cur (l ++ CRLF ++ rest) = (cur ++ l) :: frame_lines "" rest.
Proof.
  induction l as [|a l IH]; intros Hl cur rest.
  - simpl. now rewrite append_nil_r.
  - simpl in Hl. apply andb_prop in Hl. destruct Hl as [Ha Hl].
    destruct (plain_not_break a Ha) as [Hr _].
    cbn [append frame_lines]. rewrite Hr.
    rewrite (IH Hl). now rewrite append_assoc.
Qed.

Lemma prefix_nil (s : string) : String.prefix "" s = true.
Proof. destruct s; reflexivity. Qed.

Lemma payload_data (l : string) : payload ("data: " ++ l) = Some l.
Proof. unfold payload. cbn. now rewrite prefix_nil. Qed.

Lemma sent_lines_no_break (lines : list string) :
  Forall (fun l => no_break l = true) lines ->
  Forall (fun l => no_break l = true) (sent_lines lines).
Proof.
  induction 1 as [|l lines Hl Hlines IH]; [constructor|].
  cbn [sent_lines]. destruct (only_empty lines); constructor; auto.
Qed.

(** Reading the [data: ] lines of a frame back gives the lines sent. *)
Lemma payloads_data_block (lines : list string) :
  Forall (fun l => no_break l = true) lines ->
  payloads (frame_lines "" (data_block lines)) = lines.
Proof.
  induction 1 as [|l lines Hl Hlines IH]; [reflexivity|].
  cbn [data_block].
  rewrite <- (append_assoc "data: " l).
  rewrite frame_lines_line by (rewrite no_break_append; now rewrite Hl).
  cbn [payloads]. change ("" ++ ("data: " ++ l)) with ("data: " ++ l).
  rewrite (payload_data l), IH. reflexivity.
Qed.

(** A header line in front of a frame has no payload. *)
Lemma payloads_skip (line rest : string) :
  no_break line = true -> payload line = None ->
  data_payloads (line ++ CRLF ++ rest) = data_payloads rest.
Proof.
  intros Hl Hp. unfold data_payloads. rewrite (frame_lines_line line Hl).
  cbn [payloads]. change ("" ++ line) with line. now rewrite Hp.
Qed.

Lemma no_break_digits (d : Decimal.uint) :
  no_break (NilEmpty.string_of_uint d) = true.
Proof. induction d; simpl; auto. Qed.

Lemma payloads_header (tag content body : string) :
  no_break (tag ++ content) = true -> payload (tag ++ content) = None ->
  data_payloads ((tag ++ content ++ CRLF) ++ body) = data_payloads body.
Proof.
  intros Hl Hp.
  replace ((tag ++ content ++ CRLF) ++ body) with ((tag ++ content) ++ CRLF ++ body)
    by (now rewrite !append_assoc).
  now apply payloads_skip.
Qed.

Lemma payloads_retry (reconnect : Z) (rest : string) :
  data_payloads (retry_field reconnect ++ rest) = data_payloads rest.
Proof.
  unfold retry_field. destruct (reconnect =? 0); [reflexivity|].
  apply payloads_header; [|reflexivity].
  rewrite no_break_append. unfold String_of_uint32. now rewrite no_break_digits.
Qed.

Lemma payloads_id (id : Z) (rest : string) :
  data_payloads (id_field id ++ rest) = data_payloads rest.
Proof.
  unfold id_field. destruct (id =? 0); [reflexivity|].
  apply payloads_header; [|reflexivity].
  rewrite no_break_append. unfold String_of_uint32. now rewrite no_break_digits.
Qed.

Lemma payloads_event (event : option string) (rest : string) :
  (forall e, event = Some e -> no_break e = true) ->
  data_payloads (event_field event ++ rest) = data_payloads rest.
Proof.
  intros He. unfold event_field. destruct event as [e|]; [|reflexivity].
  apply payloads_header; [|reflexivity].
  rewrite no_break_append. now rewrite (He e eq_refl).
Qed.

Lemma payloads_fields (event : option string) (id reconnect : Z) (body : string) :
  (forall e, event = Some e -> no_break e = true) ->
  data_payloads ((retry_field reconnect ++ id_field id ++ event_field event) ++ body)
  = data_payloads body.
Proof.
  intros He. rewrite !append_assoc.
  rewrite payloads_retry, payloads_id. now apply payloads_event.
Qed.

(** The loop starts from the header lines. *)
Lemma generateEventMessage_body (malloc_ok : nat -> bool) (m : string)
      (event : option string) (id reconnect : Z) :
  generateEventMessage malloc_ok (Some m) event id reconnect
  = match data_lines (S (String.length m)) malloc_ok 0 m
            (generateEventMessage malloc_ok None event id reconnect) with
    | Some frame => frame
    | None => generateEventMessage malloc_ok None event id reconnect
    end.
Proof. reflexivity. Qed.

(** The frame of a message of lines joined by one terminator. *)
Lemma generateEventMessage_joined (t : string) (lines : list string)
      (event : option string) (id reconnect : Z) :
  terminator t -> lines <> [] ->
  Forall (fun l => no_break l = true) lines ->
  generateEventMessage always (Some (String.concat t lines)) event id reconnect
  = (retry_field reconnect ++ id_field id ++ event_field event)
    ++ data_block (sent_lines lines).
Proof.
  intros Ht Hne Hall.
  rewrite generateEventMessage_body, generateEventMessage_fields.
  rewrite (data_lines_joined t lines Ht Hne Hall) by lia. reflexivity.
Qed.

Lemma sent_lines_all (lines : list string) :
  (List.length lines = 1%nat \/ List.last lines "" <> "") ->
  sent_lines lines = lines.
Proof.
  induction lines as [|l lines IH]; [reflexivity|].
  intros Hlast. cbn [sent_lines].
  destruct lines as [|l2 rest]; [reflexivity|].
  destruct Hlast as [Hone | Hlast]; [discriminate|].
  destruct (only_empty (l2 :: rest)) eqn:E.
  - destruct rest; [|discriminate]. simpl in E, Hlast.
    apply is_empty_true in E. congruence.
  - f_equal. apply IH. right. exact Hlast.
Qed.

(** A last empty line is the one that is not sent. *)
Lemma sent_lines_trailing (lines : list string) :
  lines <> [] -> sent_lines (lines ++ [""])%list = lines.
Proof.
  induction lines as [|l lines IH]; [congruence|]. intros _.
  destruct lines as [|l2 rest]; [reflexivity|].
  change (sent_lines ((l :: l2 :: rest) ++ [""])%list)
    with (if only_empty ((l2 :: rest) ++ [""])%list then [l]
          else l :: sent_lines ((l2 :: rest) ++ [""])%list).
  assert (E : only_empty ((l2 :: rest) ++ [""])%list = false)
    by (destruct rest; reflexivity).
  rewrite E, IH by discriminate. reflexivity.
Qed.

Lemma concat_trailing (t : string) (lines : list string) :
  lines <> [] ->
  String.concat t (lines ++ [""])%list = String.concat t lines ++ t.
Proof.
  induction lines as [|l lines IH]; [congruence|]. intros _.
  destruct lines as [|l2 rest].
  - simpl. now rewrite append_nil_r.
  - change (String.concat t ((l :: l2 :: rest) ++ [""])%list)
      with (l ++ t ++ String.concat t ((l2 :: rest) ++ [""])%list).
    rewrite IH by discriminate. rewrite concat_cons. now rewrite !append_assoc.
Qed.

End RoundTrip.

(** C2, as the code has it.  For every message made of lines without a line
    break joined by one terminator ([\n], [\r] or [\r\n]), whatever the event
    name (no line break in it), id and retry: the payloads of the frame's
    [data: ] lines are the lines of the message, except that a last line that
    is empty and not the only one is not sent.  So rejoining the payloads
    with the terminator gives the message back when it consists of one line
    or its last line is not empty, and a message that ends with the
    terminator comes back without it. *)
Theorem data_payload_round_trip (t : string) (lines : list string)
        (event : option string) (id reconnect : Z) :
  Decoder.terminator t ->
  lines <> [] ->
  Forall (fun l => no_break l = true) lines ->
  (forall e, event = Some e -> no_break e = true) ->
  Decoder.data_payloads
    (generateEventMessage always (Some (String.concat t lines)) event id reconnect)
  = Decoder.sent_lines lines
  /\ (List.length lines = 1%nat \/ List.last lines "" <> "" ->
      Decoder.rejoin t
        (Decoder.data_payloads
           (generateEventMessage always (Some (String.concat t lines)) event id reconnect))
      = String.concat t lines)
  /\ Decoder.rejoin t
       (Decoder.data_payloads
          (generateEventMessage always (Some (String.concat t lines ++ t)) event id reconnect))
     = String.concat t lines.
Proof.
  intros Ht Hne Hall He.
  assert (Hread : forall ls, ls <> [] -> Forall (fun l => no_break l = true) ls ->
            Decoder.data_payloads
              (generateEventMessage always (Some (String.concat t ls)) event id reconnect)
            = Decoder.sent_lines ls).
  { intros ls Hls Hbr.
    rewrite (generateEventMessage_joined t ls event id reconnect Ht Hls Hbr).
    rewrite (payloads_fields event id reconnect _ He).
    apply payloads_data_block. now apply sent_lines_no_break. }
  split; [now apply Hread|]. split.
  - intros Hlast. rewrite (Hread lines Hne Hall), (sent_lines_all lines Hlast). reflexivity.
  - rewrite <- (concat_trailing t lines Hne).
    rewrite Hread.
    + now rewrite (sent_lines_trailing lines Hne).
    + destruct lines; discriminate.
    + apply Forall_app. split; [assumption | repeat constructor].
Qed.

Lemma data_payload_round_trip_witness :
  Decoder.rejoin (String LF "")
    (Decoder.data_payloads
       (generateEventMessage always (Some (String.concat (String LF "") ["line1"; "line2"]))
                             (Some "update") 5 3000))
  = String.concat (String LF "") ["line1"; "line2"].
Proof.
  destruct (data_payload_round_trip (String LF "") ["line1"; "line2"] (Some "update") 5 3000)
    as (_ & Hround & _).
  - left. reflexivity.
  - discriminate.
  - repeat constructor.
  - intros e [= <-]. reflexivity.
  - apply Hround. right. simpl. discriminate.
Defined.

(** C2, as stated, fails for a message that ends with a line break: [a\n] is
    encoded exactly as [a] is, its only payload is [a], and rejoining gives
    [a], not [a\n]. *)
Lemma trailing_break_is_not_sent :
  generateEventMessage always (Some ("a" ++ String LF "")) None 0 0
  = generateEventMessage always (Some "a") None 0 0
  /\ Decoder.data_payloads (generateEventMessage always (Some ("a" ++ String LF "")) None 0 0)
     = ["a"]
  /\ Decoder.rejoin (String LF "")
       (Decoder.data_payloads (generateEventMessage always (Some ("a" ++ String LF "")) None 0 0))
     <> "a" ++ String LF "".
Proof.
  split; [reflexivity|]. split; [reflexivity|].
  vm_compute. discriminate.
Qed.

(** ** The NULL message *)

Section NullMessage.

Import Decoder.

Lemma frame_lines_header (tag content rest : string) :
  no_break (tag ++ content) = true ->
  frame_lines "" ((tag ++ content ++ CRLF) ++ rest)
  = (tag ++ content) :: frame_lines "" rest.
Proof.
  intros Hl.
  replace ((tag ++ content ++ CRLF) ++ rest) with ((tag ++ content) ++ CRLF ++ rest)
    by (now rewrite !append_assoc).
  now rewrite frame_lines_line.
Qed.

(** The header lines of a frame without a message: none of them is blank. *)
Lemma null_message_no_blank_line (event : option string) (id reconnect : Z) :
  (forall e, event = Some e -> no_break e = true) ->
  ~ In "" (frame_lines "" (retry_field reconnect ++ id_field id ++ event_field event)).
Proof.
  intros He.
  assert (Hev : ~ In "" (frame_lines "" (event_field event))).
  { unfold event_field. destruct event as [e|]; [|simpl; tauto].
    rewrite <- (append_nil_r ("event: " ++ e ++ CRLF)).
    rewrite frame_lines_header
      by (rewrite no_break_append; now rewrite (He e eq_refl)).
    simpl. intros [Hx | []]. discriminate Hx. }
  assert (Hid : ~ In "" (frame_lines "" (id_field id ++ event_field event))).
  { unfold id_field at 1. destruct (id =? 0); [exact Hev|].
    rewrite frame_lines_header
      by (rewrite no_break_append; unfold String_of_uint32; now rewrite no_break_digits).
    intros [Hx | Hx]; [discriminate Hx | now apply Hev]. }
  unfold retry_field. destruct (reconnect =? 0); [exact Hid|].
  rewrite frame_lines_header
    by (rewrite no_break_append; unfold String_of_uint32; now rewrite no_break_digits).
  intros [Hx | Hx]; [discriminate Hx | now apply Hid].
Qed.

End NullMessage.

(** C10.  With a NULL message the encoder emits no [data: ] line and no closing
    blank line, whatever the allocator does: the frame is made of the enabled
    [retry: ], [id: ] and [event: ] lines only; it is empty when there is none
    of them, whereas the empty message gives [data: \r\n\r\n]; and, the event
    name being one line, no line of the frame is a [data: ] line or blank. *)
Theorem generateEventMessage_null_message :
  (forall malloc_ok event id reconnect,
      generateEventMessage malloc_ok None event id reconnect
      = retry_field reconnect ++ id_field id ++ event_field event)
  /\ (forall malloc_ok, generateEventMessage malloc_ok None None 0 0 = "")
  /\ generateEventMessage always (Some "") None 0 0 = "data: " ++ CRLF ++ CRLF
  /\ (forall malloc_ok event id reconnect,
         (forall e, event = Some e -> no_break e = true) ->
         Decoder.data_payloads (generateEventMessage malloc_ok None event id reconnect) = []
         /\ ~ In "" (Decoder.frame_lines ""
                       (generateEventMessage malloc_ok None event id reconnect))).
Proof.
  split; [|split; [|split]].
  - intros. apply generateEventMessage_fields.
  - reflexivity.
  - reflexivity.
  - intros malloc_ok event id reconnect He. rewrite generateEventMessage_fields. split.
    + rewrite <- (append_nil_r (retry_field reconnect ++ id_field id ++ event_field event)).
      now rewrite payloads_fields.
    + now apply null_message_no_blank_line.
Qed.

Lemma generateEventMessage_null_message_witness :
  Decoder.data_payloads (generateEventMessage always None (Some "update") 5 3000) = [].
Proof.
  destruct generateEventMessage_null_message as (_ & _ & _ & Hnone).
  apply (Hnone always (Some "update") 5 3000).
  intros e [= <-]. reflexivity.
Defined.

(** ** The average queue length *)

Section Average.

Context {T : Type} `{AsyncClient T}.

Lemma waiting_none_connected (cs : list (Session.AsyncEventSourceClient T)) :
  forall acc,
    Forall (fun c => Session.connected c = false) cs ->
    Hub.waiting cs acc = acc.
Proof.
  induction cs as [|c cs IH]; intros acc Hall; [reflexivity|].
  inversion Hall as [|? ? Hc Hcs]; subst. simpl. rewrite Hc. now apply IH.
Qed.

(** A hub with sessions none of which reports connected divides by zero. *)
Lemma avgPacketsWaiting_none_connected (h : Hub.AsyncEventSource T) :
  Hub._clients h <> [] ->
  Forall (fun c => Session.connected c = false) (Hub._clients h) ->
  Hub.avgPacketsWaiting h = None.
Proof.
  intros Hne Hall. unfold Hub.avgPacketsWaiting.
  destruct (Hub._clients h) as [|c cs] eqn:E; [congruence|].
  now rewrite (waiting_none_connected (c :: cs) (0, 0) Hall).
Qed.

End Average.

(** C9 does not hold of the code.  A session is admitted, its transport stops
    reporting connected, and its disconnect callback has not run yet: the hub
    is reachable, its session list is not empty, no listed session reports
    connected, [nConnectedClients] is 0 and [avgPacketsWaiting] divides by
    it. *)
Theorem avgPacketsWaiting_divides_by_zero :
  Reach.reachable Examples.hub_closing
  /\ Hub._clients Examples.hub_closing <> []
  /\ Hub.count Examples.hub_closing = 0
  /\ Hub.waiting (Hub._clients Examples.hub_closing) (0, 0) = (0, 0)
  /\ Hub.avgPacketsWaiting Examples.hub_closing = None.
Proof.
  split; [|repeat split; discriminate].
  apply (Reach.reach_step {| Hub._clients := [Examples.session (Examples.live 64) []] |}).
  - apply (Reach.reach_step {| Hub._clients := [] |}); [constructor|].
    apply (Reach.step_admit {| Hub._clients := [] |} (Examples.live 64) 0).
  - apply (Reach.step_transport [] (Examples.session (Examples.live 64) [])
                                Examples.closed []).
    discriminate.
Qed.

(** * Further properties *)

(** ** The encoder on any message *)

Section AnyMessage.

Import Lines.

Lemma not_plain (a : ascii) : plain a = false -> a = CR \/ a = LF.
Proof.
  unfold plain. destruct (Ascii.eqb a CR) eqn:Er.
  - intros _. left. now apply Ascii.eqb_eq.
  - destruct (Ascii.eqb a LF) eqn:En; [|discriminate].
    intros _. right. now apply Ascii.eqb_eq.
Qed.

(** [strchr] for both break characters is the character-wise scan. *)
Lemma next_break_first_break (s : string) : next_break s = first_break s.
Proof.
  induction s as [|a s IH]; [reflexivity|].
  cbn [first_break]. destruct (plain a) eqn:Pa.
  - rewrite <- IH. destruct (plain_not_break a Pa) as [Hr Hn].
    unfold next_break. cbn [strchr]. rewrite Hr, Hn.
    destruct (strchr s LF) as [n|], (strchr s CR) as [r|]; cbn [option_map]; try reflexivity.
    change (S r <? S n)%nat with (r <? n)%nat.
    destruct (r <? n)%nat.
    + change (S n =? S r + 1)%nat with (n =? r + 1)%nat.
      destruct (n =? r + 1)%nat; reflexivity.
    + change (S r =? S n + 1)%nat with (r =? n + 1)%nat.
      destruct (r =? n + 1)%nat; reflexivity.
  - clear IH. unfold next_break. cbn [strchr].
    destruct (not_plain a Pa) as [-> | ->].
    + (* a carriage return *)
      change (Ascii.eqb CR LF) with false. change (Ascii.eqb CR CR) with true. cbv iota.
      destruct s as [|b s]; [reflexivity|]. cbn [strchr].
      destruct (Ascii.eqb b LF) eqn:Eb.
      * apply Ascii.eqb_eq in Eb. subst b. reflexivity.
      * assert (Hb : negb (plain b) && negb (Ascii.eqb CR b) = false).
        { unfold plain. rewrite Eb. rewrite (Ascii.eqb_sym CR b).
          destruct (Ascii.eqb b CR); reflexivity. }
        rewrite Hb. destruct (strchr s LF) as [n|]; cbn [option_map]; reflexivity.
    + (* a line feed *)
      change (Ascii.eqb LF LF) with true. change (Ascii.eqb LF CR) with false. cbv iota.
      destruct s as [|b s]; [reflexivity|]. cbn [strchr].
      destruct (Ascii.eqb b CR) eqn:Eb.
      * apply Ascii.eqb_eq in Eb. subst b. reflexivity.
      * assert (Hb : negb (plain b) && negb (Ascii.eqb LF b) = false).
        { unfold plain. rewrite Eb. rewrite (Ascii.eqb_sym LF b).
          destruct (Ascii.eqb b LF); reflexivity. }
        rewrite Hb. destruct (strchr s CR) as [r|]; cbn [option_map]; reflexivity.
Qed.

Lemma first_break_none (s : string) : first_break s = None -> no_break s = true.
Proof.
  induction s as [|a s IH]; [reflexivity|]. cbn [first_break no_break].
  destruct (plain a).
  - destruct (first_break s) as [[e n]|]; [discriminate|]. intros _. now rewrite IH.
  - destruct s as [|b s]; [discriminate|].
    destruct (negb (plain b) && negb (Ascii.eqb a b)); discriminate.
Qed.

Lemma remove_breaks_plain (s : string) : no_break s = true -> remove_breaks s = s.
Proof.
  induction s as [|a s IH]; [reflexivity|]. cbn [no_break remove_breaks].
  intros Hs. apply andb_prop in Hs. destruct Hs as [Ha Hs]. now rewrite Ha, IH.
Qed.

(** What a line break cuts a string into: a first line without a break, and
    a rest that starts after one or two break characters. *)
Lemma first_break_some (s : string) :
  forall lineEnd nextLine,
    first_break s = Some (lineEnd, nextLine) ->
    no_break (take lineEnd s) = true
    /\ remove_breaks s = take lineEnd s ++ remove_breaks (drop nextLine s)
    /\ ends_in_break s
       = (if is_empty (drop nextLine s) then true else ends_in_break (drop nextLine s)).
Proof.
  induction s as [|a s IH]; intros lineEnd nextLine; [discriminate|].
  cbn [first_break]. destruct (plain a) eqn:Pa.
  - destruct (first_break s) as [[e n]|] eqn:E; [|discriminate].
    intros [= <- <-]. destruct (IH e n eq_refl) as (I1 & I2 & I3).
    cbn [take drop no_break remove_breaks ends_in_break]. rewrite Pa, I1, I2.
    repeat split.
    destruct s as [|b s]; [discriminate E|].
    cbn [is_empty]. exact I3.
  - destruct s as [|b s].
    + intros [= <- <-]. cbn. now rewrite Pa.
    + destruct (negb (plain b) && negb (Ascii.eqb a b)) eqn:Pb; intros [= <- <-].
      * apply andb_prop in Pb. destruct Pb as [Pb _]. apply negb_true_iff in Pb.
        cbn [take drop no_break remove_breaks ends_in_break is_empty append].
        rewrite Pa, Pb. repeat split.
      * cbn [take drop no_break remove_breaks ends_in_break is_empty append].
        rewrite Pa. repeat split.
Qed.

(** The loop on any message, every allocation succeeding: [data: ] lines for
    one or more lines without a break, then the blank line. *)
Lemma data_lines_any (fuel : nat) :
  forall k lineStart ev,
    (String.length lineStart < fuel)%nat ->
    exists lines,
      lines <> []
      /\ Forall (fun l => no_break l = true) lines
      /\ String.concat "" lines = remove_breaks lineStart
      /\ data_lines fuel always k lineStart ev = Some (ev ++ Decoder.data_block lines).
Proof.
  induction fuel as [|fuel IH]; intros k lineStart ev Hfuel; [lia|].
  cbn [data_lines]. change (always k) with true. cbv iota.
  destruct (next_break lineStart) as [[lineEnd nextLine]|] eqn:E.
  - pose proof (next_break_bounds _ _ _ E) as Hb.
    rewrite next_break_first_break in E.
    destruct (first_break_some _ _ _ E) as (Hline & Hrem & _).
    destruct (is_empty (drop nextLine lineStart)) eqn:Em.
    + exists [take lineEnd lineStart]. repeat split.
      * discriminate.
      * repeat constructor. exact Hline.
      * rewrite Hrem, (is_empty_true _ Em). cbn. now rewrite append_nil_r.
      * cbn [Decoder.data_block]. now rewrite !append_assoc.
    + destruct (IH (S k) (drop nextLine lineStart) (ev ++ "data: " ++ take lineEnd lineStart ++ CRLF))
        as (lines & Hne & Hall & Hcat & Hrun).
      { rewrite length_drop. lia. }
      exists (take lineEnd lineStart :: lines). repeat split.
      * discriminate.
      * constructor; assumption.
      * destruct lines as [|l lines]; [congruence|].
        change (String.concat "" (take lineEnd lineStart :: l :: lines))
          with (take lineEnd lineStart ++ "" ++ String.concat "" (l :: lines)).
        rewrite Hcat, Hrem. reflexivity.
      * rewrite Hrun. cbn [Decoder.data_block]. now rewrite !append_assoc.
  - rewrite next_break_first_break in E. pose proof (first_break_none _ E) as Hline.
    exists [lineStart]. repeat split.
    + discriminate.
    + repeat constructor. exact Hline.
    + cbn. now rewrite remove_breaks_plain.
Qed.

Lemma ends_in_break_plain (s : string) : no_break s = true -> ends_in_break s = false.
Proof.
  induction s as [|a s IH]; [reflexivity|]. cbn [no_break ends_in_break].
  intros Hs. apply andb_prop in Hs. destruct Hs as [Ha Hs].
  destruct s; [cbn; now rewrite Ha | now apply IH].
Qed.

(** The loop when no allocation succeeds: nothing but the closing line break
    of a message that ends with one. *)
Lemma data_lines_never (fuel : nat) :
  forall k lineStart ev,
    (String.length lineStart < fuel)%nat ->
    data_lines fuel never k lineStart ev
    = Some (ev ++ (if ends_in_break lineStart then CRLF else "")).
Proof.
  induction fuel as [|fuel IH]; intros k lineStart ev Hfuel; [lia|].
  cbn [data_lines]. change (never k) with false. cbv iota.
  destruct (next_break lineStart) as [[lineEnd nextLine]|] eqn:E.
  - pose proof (next_break_bounds _ _ _ E) as Hb.
    rewrite next_break_first_break in E.
    destruct (first_break_some _ _ _ E) as (_ & _ & Hend).
    rewrite Hend.
    destruct (is_empty (drop nextLine lineStart)) eqn:Em; [reflexivity|].
    apply IH. rewrite length_drop. lia.
  - rewrite next_break_first_break in E.
    rewrite (ends_in_break_plain _ (first_break_none _ E)). now rewrite append_nil_r.
Qed.

End AnyMessage.

(** X1.  Whatever line breaks a message holds, and with every allocation
    succeeding, its frame is the enabled header lines, then a [data: ] line
    for each of one or more lines, then the blank line; no such line holds a
    line break, and the lines put together are the message without its
    ['\r'] and ['\n'] characters: no other character is lost or added. *)
Theorem generateEventMessage_any_message (m : string) (event : option string)
        (id reconnect : Z) :
  exists lines,
    lines <> []
    /\ Forall (fun l => no_break l = true) lines
    /\ String.concat "" lines = Lines.remove_breaks m
    /\ generateEventMessage always (Some m) event id reconnect
       = (retry_field reconnect ++ id_field id ++ event_field event)
         ++ Decoder.data_block lines.
Proof.
  destruct (data_lines_any (S (String.length m)) 0 m
              (generateEventMessage always None event id reconnect) ltac:(lia))
    as (lines & Hne & Hall & Hcat & Hrun).
  exists lines. repeat split; try assumption.
  rewrite generateEventMessage_body, Hrun. now rewrite generateEventMessage_fields.
Qed.

(** X2.  Reading a frame back: for any message and a one-line event name, the
    payloads of the [data: ] lines hold no line break, there is at least
    one, and joined without a separator they are the message without its
    line breaks. *)
Theorem data_payloads_keep_content (m : string) (event : option string)
        (id reconnect : Z) :
  (forall e, event = Some e -> no_break e = true) ->
  let payloads :=
    Decoder.data_payloads (generateEventMessage always (Some m) event id reconnect) in
  payloads <> []
  /\ Forall (fun l => no_break l = true) payloads
  /\ String.concat "" payloads = Lines.remove_breaks m.
Proof.
  intros He payloads. subst payloads.
  destruct (data_lines_any (S (String.length m)) 0 m
              (generateEventMessage always None event id reconnect) ltac:(lia))
    as (lines & Hne & Hall & Hcat & Hrun).
  rewrite generateEventMessage_body, Hrun, generateEventMessage_fields.
  rewrite (payloads_fields event id reconnect _ He). unfold Decoder.data_payloads.
  rewrite (payloads_data_block lines Hall). auto.
Qed.

Lemma data_payloads_keep_content_witness :
  String.concat ""
    (Decoder.data_payloads
       (generateEventMessage always
          (Some ("a" ++ String CR (String CR (String LF ("b" ++ String LF "")))))
          (Some "update") 5 0))
  = "ab".
Proof.
  destruct (data_payloads_keep_content
              ("a" ++ String CR (String CR (String LF ("b" ++ String LF ""))))
              (Some "update") 5 0) as (_ & _ & Hcat).
  - intros e [= <-]. reflexivity.
  - exact Hcat.
Defined.

(** X3.  When no line buffer can be allocated, the frame of any message has
    no [data: ] line at all: it is the enabled header lines, followed by one
    line break if the message ends with a line break and by nothing
    otherwise. *)
Theorem generateEventMessage_without_memory (m : string) (event : option string)
        (id reconnect : Z) :
  generateEventMessage Lines.never (Some m) event id reconnect
  = (retry_field reconnect ++ id_field id ++ event_field event)
    ++ (if Lines.ends_in_break m then CRLF else "").
Proof.
  rewrite generateEventMessage_body, data_lines_never by lia.
  now rewrite generateEventMessage_fields.
Qed.

(** X4.  How the loop finds the end of a line: the comparisons of the two
    [strchr] pointers amount to a scan character by character, in which the
    first ['\r'] or ['\n'] ends the line and takes a directly following
    partner (['\n'] after ['\r'], ['\r'] after ['\n']) with it, but never a
    second break of the same kind. *)
Theorem next_break_scans_for_first_break (lineStart : string) :
  next_break lineStart = Lines.first_break lineStart.
Proof. apply next_break_first_break. Qed.

(** ** Acknowledging in steps *)

Section Cumulative.

Import Message Queue.

Lemma ack_twice (m : Message.t) (a b : Z) :
  0 <= _acked m <= _len m -> 0 <= a -> 0 <= b ->
  _acked m + a + b < SizeT.modulus ->
  fst (ack (fst (ack m a)) b) = fst (ack m (a + b))
  /\ snd (ack m a) + snd (ack (fst (ack m a)) b) = snd (ack m (a + b)).
Proof.
  intros Hm Ha Hb Hsum. unfold ack, SizeT.add, SizeT.sub.
  rewrite (wrap_small (_acked m + a)) by lia.
  rewrite (wrap_small (_acked m + (a + b))) by lia.
  destruct (_len m <? _acked m + a) eqn:C1; cbn [fst snd _acked _len _sent _data].
  - apply Z.ltb_lt in C1. rewrite (wrap_small (_len m + b)) by lia.
    assert (C : (_len m <? _acked m + (a + b)) = true) by (apply Z.ltb_lt; lia).
    rewrite C. destruct (_len m <? _len m + b) eqn:C2; cbn [fst snd].
    + rewrite !wrap_small by lia. split; [reflexivity | lia].
    + apply Z.ltb_ge in C2. rewrite !wrap_small by lia.
      split; [f_equal; lia | lia].
  - apply Z.ltb_ge in C1. rewrite (wrap_small (_acked m + a + b)) by lia.
    replace (_acked m + (a + b)) with (_acked m + a + b) by lia.
    destruct (_len m <? _acked m + a + b); cbn [fst snd]; split; reflexivity || lia.
Qed.

Lemma same_but_sent_refl (q : list Message.t) : Forall2 same_but_sent q q.
Proof. induction q; constructor; auto. unfold same_but_sent. auto. Qed.

Lemma same_but_sent_sym (q q' : list Message.t) :
  Forall2 same_but_sent q q' -> Forall2 same_but_sent q' q.
Proof.
  induction 1 as [|m m' q q' (Hd & Hl & Ha) _ IH]; constructor; auto.
  unfold same_but_sent. auto.
Qed.

Lemma same_but_sent_trans (q1 q2 q3 : list Message.t) :
  Forall2 same_but_sent q1 q2 -> Forall2 same_but_sent q2 q3 ->
  Forall2 same_but_sent q1 q3.
Proof.
  intros H12. revert q3. induction H12 as [|m1 m2 q1 q2 (Hd & Hl & Ha) _ IH];
    intros q3 H23; inversion H23 as [|? m3 ? q3' (Hd' & Hl' & Ha') Hrest]; subst;
    constructor; auto.
  unfold same_but_sent. rewrite Hd', Hl', Ha'. auto.
Qed.

Lemma redistribute_same (q q' : list Message.t) :
  Forall2 same_but_sent q q' ->
  forall len, Forall2 same_but_sent (redistribute len q) (redistribute len q').
Proof.
  induction 1 as [|m m' q q' (Hd & Hl & Ha) Hq IH]; intros len; [constructor|].
  cbn [redistribute]. destruct (len =? 0).
  - constructor; [unfold same_but_sent; auto | assumption].
  - rewrite Hl, Ha. destruct (_len m - _acked m <=? len); [apply IH|].
    constructor; [unfold same_but_sent; cbn; auto | assumption].
Qed.

Lemma remove_finished_same (q q' : list Message.t) :
  Forall2 same_but_sent q q' ->
  Forall2 same_but_sent (Session.remove_finished q) (Session.remove_finished q').
Proof.
  induction 1 as [|m m' q q' (Hd & Hl & Ha) Hq IH]; [constructor|].
  cbn [Session.remove_finished]. unfold finished. rewrite Hl, Ha.
  destruct (_acked m =? _len m); [exact IH|].
  constructor; [unfold same_but_sent; auto | assumption].
Qed.

Lemma remove_finished_twice (q : list Message.t) :
  Session.remove_finished (Session.remove_finished q) = Session.remove_finished q.
Proof.
  induction q as [|m q IH]; [reflexivity|]. cbn [Session.remove_finished].
  destruct (finished m) eqn:F; [exact IH|]. cbn [Session.remove_finished]. now rewrite F.
Qed.

(** Dropping the finished front first makes no difference to what is left
    after the bytes are handed out and the finished front is dropped. *)
Lemma redistribute_after_remove (q : list Message.t) :
  forall len,
    0 <= len ->
    Session.remove_finished (redistribute len (Session.remove_finished q))
    = Session.remove_finished (redistribute len q).
Proof.
  induction q as [|m q IH]; intros len Hlen; [reflexivity|].
  cbn [Session.remove_finished]. destruct (finished m) eqn:F; [|reflexivity].
  cbn [redistribute]. destruct (len =? 0) eqn:Z0.
  - apply Z.eqb_eq in Z0. subst len. rewrite redistribute_zero.
    cbn [Session.remove_finished]. rewrite F. apply remove_finished_twice.
  - apply finished_iff in F.
    assert (L : (_len m - _acked m <=? len) = true) by (apply Z.leb_le; lia).
    rewrite L. replace (len - (_len m - _acked m)) with len by lia. now apply IH.
Qed.

(** Handing out [a] bytes and then [b] is handing out [a + b]. *)
Lemma redistribute_add (q : list Message.t) :
  forall a b,
    Forall acked_in_length q -> 0 <= a -> 0 <= b ->
    redistribute b (redistribute a q) = redistribute (a + b) q.
Proof.
  induction q as [|m q IH]; intros a b Hin Ha Hb.
  - cbn. reflexivity.
  - inversion Hin as [|? ? Hm Hq]; subst. unfold acked_in_length in Hm.
    cbn [redistribute]. destruct (a =? 0) eqn:A0.
    + apply Z.eqb_eq in A0. subst a. reflexivity.
    + apply Z.eqb_neq in A0.
      assert (AB : (a + b =? 0) = false) by (apply Z.eqb_neq; lia). rewrite AB.
      destruct (_len m - _acked m <=? a) eqn:L1.
      * apply Z.leb_le in L1.
        assert (L : (_len m - _acked m <=? a + b) = true) by (apply Z.leb_le; lia).
        rewrite L, IH by (auto; lia). f_equal. lia.
      * apply Z.leb_gt in L1. cbn [redistribute _len _acked].
        destruct (b =? 0) eqn:B0.
        -- apply Z.eqb_eq in B0. subst b.
           assert (L : (_len m - _acked m <=? a + 0) = false) by (apply Z.leb_gt; lia).
           rewrite L. do 2 f_equal. lia.
        -- destruct (_len m - (_acked m + a) <=? b) eqn:L2.
           ++ apply Z.leb_le in L2.
              assert (L : (_len m - _acked m <=? a + b) = true) by (apply Z.leb_le; lia).
              rewrite L. f_equal. lia.
           ++ apply Z.leb_gt in L2.
              assert (L : (_len m - _acked m <=? a + b) = false) by (apply Z.leb_gt; lia).
              rewrite L. cbn [_data _len _sent]. do 2 f_equal. lia.
Qed.

Lemma redistribute_acked (q : list Message.t) :
  forall len,
    Forall acked_in_length q -> 0 <= len ->
    Queue.acked (redistribute len q) <= Queue.acked q + len.
Proof.
  induction q as [|m q IH]; intros len Hin Hlen; [cbn; lia|].
  inversion Hin as [|? ? Hm Hq]; subst. unfold acked_in_length in Hm.
  cbn [redistribute]. destruct (len =? 0); [cbn; lia|].
  destruct (_len m - _acked m <=? len) eqn:L.
  - apply Z.leb_le in L. specialize (IH (len - (_len m - _acked m)) Hq ltac:(lia)).
    cbn [Queue.acked]. lia.
  - cbn. lia.
Qed.

Lemma remove_finished_acked (q : list Message.t) :
  Forall acked_in_length q ->
  Queue.acked (Session.remove_finished q) <= Queue.acked q.
Proof.
  induction 1 as [|m q Hm Hq IH]; [cbn; lia|]. cbn [Session.remove_finished].
  unfold acked_in_length in Hm. destruct (finished m); cbn [Queue.acked]; lia.
Qed.

End Cumulative.

(** X5.  Acknowledgments of a message add up: with offsets within the length
    and no wrap-around, [ack (a)] followed by [ack (b)] leaves the message as
    [ack (a + b)] does, and the two surpluses together are the surplus of
    [ack (a + b)]. *)
Theorem ack_in_two_steps (m : Message.t) (a b : Z) :
  0 <= Message._acked m <= Message._len m -> 0 <= a -> 0 <= b ->
  Message._acked m + a + b < SizeT.modulus ->
  fst (Message.ack (fst (Message.ack m a)) b) = fst (Message.ack m (a + b))
  /\ snd (Message.ack m a) + snd (Message.ack (fst (Message.ack m a)) b)
     = snd (Message.ack m (a + b)).
Proof. apply ack_twice. Qed.

Lemma ack_in_two_steps_witness :
  snd (Message.ack Examples.half_acked 7)
  + snd (Message.ack (fst (Message.ack Examples.half_acked 7)) 8)
  = snd (Message.ack Examples.half_acked (7 + 8)).
Proof.
  apply (ack_in_two_steps Examples.half_acked 7 8); vm_compute; intuition discriminate.
Defined.

Section CumulativeQueue.

Context {T : Type} `{AsyncClient T}.
Import Message Session Queue.

Lemma onAck_queue_redistribute (s : AsyncEventSourceClient T) (client : T) (len : Z) :
  _client s = Some client ->
  Forall acked_in_length (_messageQueue s) ->
  0 <= len -> len + Queue.acked (_messageQueue s) < SizeT.modulus ->
  Forall2 same_but_sent
          (remove_finished (redistribute len (_messageQueue s)))
          (_messageQueue (_onAck s len)).
Proof.
  intros Hc Hin Hlen Hsum.
  pose proof (ack_loop_redistribute (_messageQueue s) (ack_fuel (_messageQueue s)) len
                Hin Hlen Hsum ltac:(unfold ack_fuel; lia)) as Hloop.
  destruct (onAck_unfold s client len _ Hc Hloop) as [Hq _].
  rewrite Hq. apply send_unsent_same.
Qed.

Lemma onAck_twice (s : AsyncEventSourceClient T) (a b : Z) :
  _client s <> None ->
  Forall acked_in_length (_messageQueue s) ->
  0 <= a -> 0 <= b ->
  a + b + Queue.acked (_messageQueue s) < SizeT.modulus ->
  Forall2 same_but_sent (_messageQueue (_onAck s (a + b)))
                        (_messageQueue (_onAck (_onAck s a) b)).
Proof.
  intros Hc Hin Ha Hb Hsum.
  destruct (_client s) as [client|] eqn:Ec; [clear Hc | congruence].
  pose proof (acked_nonneg _ Hin) as Hq0.
  destruct (onAck_measures s client a Ec Hin Ha ltac:(lia)) as (_ & Hin1 & _ & client1 & Ec1).
  pose proof (onAck_queue_redistribute s client a Ec Hin Ha ltac:(lia)) as H1.
  pose proof (onAck_queue_redistribute s client (a + b) Ec Hin ltac:(lia) ltac:(lia)) as Hab.
  destruct (redistribute_measures (_messageQueue s) a Hin Ha) as (_ & Rf & _).
  assert (Hsum1 : b + Queue.acked (_messageQueue (_onAck s a)) < SizeT.modulus).
  { destruct (same_but_sent_measures _ _ H1) as (_ & _ & Hacked & _).
    pose proof (remove_finished_acked _ Rf).
    pose proof (redistribute_acked (_messageQueue s) a Hin Ha). lia. }
  pose proof (onAck_queue_redistribute (_onAck s a) client1 b Ec1 Hin1 Hb Hsum1) as H2.
  eapply same_but_sent_trans; [apply same_but_sent_sym; exact Hab|].
  eapply same_but_sent_trans; [|exact H2].
  rewrite <- (redistribute_add (_messageQueue s) a b Hin Ha Hb).
  rewrite <- (redistribute_after_remove (redistribute a (_messageQueue s)) b Hb).
  apply remove_finished_same, redistribute_same. exact H1.
Qed.

End CumulativeQueue.

(** X6.  Acknowledgments of a session add up: for a session with its
    transport and a queue whose offsets are within the lengths, and without
    wrap-around, [_onAck (a)] followed by [_onAck (b)] leaves the same
    messages in the queue, in the same order and with the same acknowledged
    offsets, as one [_onAck (a + b)]; only sent offsets may differ, as the
    queue is drained once more. *)
Theorem onAck_in_two_steps (T : Type) (C : AsyncClient T)
        (s : Session.AsyncEventSourceClient T) (a b : Z) :
  Session._client s <> None ->
  Forall Queue.acked_in_length (Session._messageQueue s) ->
  0 <= a -> 0 <= b ->
  a + b + Queue.acked (Session._messageQueue s) < SizeT.modulus ->
  Forall2 Queue.same_but_sent
          (Session._messageQueue (Session._onAck s (a + b)))
          (Session._messageQueue (Session._onAck (Session._onAck s a) b)).
Proof. apply onAck_twice. Qed.

Lemma onAck_in_two_steps_witness :
  Forall2 Queue.same_but_sent
    (Session._messageQueue
       (Session._onAck
          (Examples.session (Examples.live 4) [Examples.half_acked; Examples.unsent]) (12 + 3)))
    (Session._messageQueue
       (Session._onAck
          (Session._onAck
             (Examples.session (Examples.live 4) [Examples.half_acked; Examples.unsent]) 12) 3)).
Proof.
  apply (onAck_in_two_steps Tcp.conn Tcp.conn_client
           (Examples.session (Examples.live 4) [Examples.half_acked; Examples.unsent]) 12 3).
  - discriminate.
  - repeat constructor; vm_compute; discriminate.
  - lia.
  - lia.
  - reflexivity.
Defined.

(** ** Draining the queue *)

Section Drain.

Context {T : Type} `{AsyncClient T}.
Import Message Session Queue.



(** No message fits: the loop over the queue changes nothing. *)
Lemma send_unsent_no_room (q : list Message.t) (client : T) :
  Forall (fun m => sent m = false ->
                   client_space client < SizeT.sub (_len m) (_sent m)) q ->
  send_unsent client q = (client, q).
Proof.
  induction 1 as [|m q Hm Hq IH]; [reflexivity|].
  cbn [send_unsent]. destruct (sent m) eqn:S; cbn [negb].
  - now rewrite IH.
  - unfold Message.send. specialize (Hm eq_refl). apply Z.ltb_lt in Hm.
    rewrite Hm. now rewrite IH.
Qed.

Lemma remove_finished_sublist (P : Message.t -> Prop) (q : list Message.t) :
  Forall P q -> Forall P (remove_finished q).
Proof.
  induction 1 as [|m q Hm Hq IH]; [constructor|]. cbn [remove_finished].
  destruct (finished m); [exact IH | now constructor].
Qed.

(** No unsent message fits: the whole drain is the removal at the front. *)
Lemma runQueue_no_room (client : T) (q : list Message.t) :
  Forall (fun m => sent m = false ->
                   client_space client < SizeT.sub (_len m) (_sent m)) q ->
  _runQueue client q = (client, remove_finished q).
Proof.
  intros Hroom. unfold _runQueue.
  apply send_unsent_no_room. now apply remove_finished_sublist.
Qed.

Lemma remove_finished_nothing_left (q : list Message.t) :
  Forall (fun m => finished m = true) q -> remove_finished q = [].
Proof.
  induction 1 as [|m q Hm Hq IH]; [reflexivity|]. cbn [remove_finished]. now rewrite Hm.
Qed.

Lemma remove_finished_app_unfinished (q : list Message.t) (m : Message.t) :
  finished m = false ->
  remove_finished (q ++ [m])%list = (remove_finished q ++ [m])%list.
Proof.
  intros F. induction q as [|m0 q IH]; cbn [remove_finished app].
  - now rewrite F.
  - destruct (finished m0); [exact IH | reflexivity].
Qed.

End Drain.


(** X8.  Back-pressure: when the transport has less room than any of the
    unsent messages needs, a drain does not touch the transport and moves no
    offset; all it does is to drop the fully acknowledged messages at the
    front. *)
Theorem runQueue_without_room (T : Type) (C : AsyncClient T) (client : T)
        (q : list Message.t) :
  Forall (fun m => Message.sent m = false ->
                   client_space client < SizeT.sub (Message._len m) (Message._sent m)) q ->
  Session._runQueue client q = (client, Session.remove_finished q).
Proof. apply runQueue_no_room. Qed.

Lemma runQueue_without_room_witness :
  Session._runQueue (Examples.live 4) Examples.full_queue
  = (Examples.live 4, List.repeat Examples.unsent 31).
Proof.
  apply (runQueue_without_room Tcp.conn Tcp.conn_client (Examples.live 4) Examples.full_queue).
  cbv [Examples.full_queue List.repeat].
  repeat (constructor; [intros Hs; (discriminate Hs || reflexivity)|]).
  constructor.
Defined.

(** X9.  A queue of fully acknowledged messages is emptied by a drain without
    a call to the transport.  A message whose buffer could not be allocated
    is of this kind from the start (its length is 0): offered to a connected
    session with an empty queue and a transport that can send, it is dropped
    at once and the session is as before. *)
Theorem finished_messages_are_dropped (T : Type) (C : AsyncClient T) :
  (forall (client : T) (q : list Message.t),
      Forall (fun m => Message.finished m = true) q ->
      Session._runQueue client q = (client, []))
  /\ (forall data len,
         Message.finished (Message.new false data len) = true
         /\ Message.sent (Message.new false data len) = true)
  /\ (forall (s : Session.AsyncEventSourceClient T) (client : T) data len,
         Session._client s = Some client ->
         Session._messageQueue s = [] ->
         client_connected client = true ->
         client_canSend client = true ->
         Session.write false s data len = s).
Proof.
  split; [|split].
  - intros client q Hall. unfold Session._runQueue.
    now rewrite remove_finished_nothing_left.
  - intros data len. split; reflexivity.
  - intros s client data len Hc Hq Hup Hcan.
    unfold Session.write.
    rewrite (queueMessage_below_cap s client _ Hc Hup)
      by (rewrite Hq; reflexivity).
    rewrite Hcan, Hq. cbn. destruct s; cbn in *. now rewrite Hc, Hq.
Qed.

Lemma finished_messages_are_dropped_witness :
  Session.write false (Examples.session (Examples.live 64) []) "data: hi" 8
  = Examples.session (Examples.live 64) [].
Proof.
  destruct (finished_messages_are_dropped Tcp.conn Tcp.conn_client) as (_ & _ & Hdrop).
  apply (Hdrop _ (Examples.live 64)); reflexivity.
Defined.

(** ** Counting sessions *)

Section Counting.

Context {T : Type} `{AsyncClient T}.
Import Session Queue Stats.

Lemma connected_total_bounds (cs : list (AsyncEventSourceClient T)) :
  0 <= connected_total cs <= Z.of_nat (List.length cs).
Proof.
  induction cs as [|c cs IH]; [cbn; lia|].
  cbn [connected_total List.length]. destruct (connected c); lia.
Qed.

Lemma waiting_total_bounds (cs : list (AsyncEventSourceClient T)) :
  Forall within_cap cs ->
  0 <= waiting_total cs <= SSE_MAX_QUEUED_MESSAGES * connected_total cs.
Proof.
  induction 1 as [|c cs Hc Hcs IH]; [cbn; lia|].
  cbn [waiting_total connected_total]. unfold within_cap in Hc. unfold packetsWaiting.
  destruct (connected c); lia.
Qed.

Lemma count_connected_total (h : Hub.AsyncEventSource T) :
  Hub.count h = connected_total (Hub._clients h).
Proof.
  unfold Hub.count. induction (Hub._clients h) as [|c cs IH]; [reflexivity|].
  cbn [List.filter connected_total]. destruct (connected c); cbn [List.length]; lia.
Qed.

Lemma connected_total_zero (cs : list (AsyncEventSourceClient T)) :
  connected_total cs = 0 <-> Forall (fun c => connected c = false) cs.
Proof.
  induction cs as [|c cs IH]; [cbn; split; [constructor | reflexivity]|].
  pose proof (connected_total_bounds cs) as Hb. cbn [connected_total]. split.
  - intros Hz. destruct (connected c) eqn:E; [lia|].
    constructor; [exact E|]. apply IH. lia.
  - intros Hall. inversion Hall as [|? ? Hc Hcs]; subst. rewrite Hc.
    apply IH in Hcs. lia.
Qed.

(** The loop of [avgPacketsWaiting] without wrap-around. *)
Lemma waiting_sums (cs : list (AsyncEventSourceClient T)) :
  forall aql n,
    0 <= aql -> 0 <= n ->
    aql + waiting_total cs < SizeT.modulus ->
    n + connected_total cs < SizeT.modulus ->
    (forall c, In c cs -> 0 <= packetsWaiting c) ->
    Hub.waiting cs (aql, n) = (aql + waiting_total cs, n + connected_total cs).
Proof.
  induction cs as [|c cs IH]; intros aql n Ha Hn Hw Hc Hpos.
  - cbn. f_equal; lia.
  - cbn [Hub.waiting waiting_total connected_total fst snd] in *.
    assert (Hp : 0 <= packetsWaiting c) by (apply Hpos; now left).
    assert (Hrest : forall c', In c' cs -> 0 <= packetsWaiting c')
      by (intros c' Hin; apply Hpos; now right).
    assert (Hw0 : 0 <= waiting_total cs).
    { clear -Hrest. induction cs as [|c' cs IH']; [cbn; lia|].
      cbn [waiting_total].
      assert (0 <= packetsWaiting c') by (apply Hrest; now left).
      assert (0 <= waiting_total cs) by (apply IH'; intros; apply Hrest; now right).
      destruct (connected c'); lia. }
    pose proof (connected_total_bounds cs) as Hb.
    destruct (connected c).
    + unfold SizeT.add. rewrite !wrap_small by lia.
      rewrite IH by (auto; lia). f_equal; lia.
    + rewrite IH by (auto; lia). f_equal; lia.
Qed.

Lemma avgPacketsWaiting_value (h : Hub.AsyncEventSource T) :
  Forall within_cap (Hub._clients h) ->
  33 * Z.of_nat (List.length (Hub._clients h)) < SizeT.modulus ->
  Hub.avgPacketsWaiting h
  = match Hub._clients h with
    | [] => Some 0
    | _ :: _ =>
        if connected_total (Hub._clients h) =? 0 then None
        else Some ((waiting_total (Hub._clients h) + connected_total (Hub._clients h) / 2)
                   / connected_total (Hub._clients h))
    end.
Proof.
  intros Hcap Hlen. unfold Hub.avgPacketsWaiting.
  destruct (Hub._clients h) as [|c cs] eqn:E; [reflexivity|]. rewrite <- E in *.
  pose proof (connected_total_bounds (Hub._clients h)) as Hb.
  pose proof (waiting_total_bounds (Hub._clients h) Hcap) as Hw.
  unfold SSE_MAX_QUEUED_MESSAGES in Hw.
  rewrite waiting_sums; try lia.
  - cbn [Z.add]. destruct (connected_total (Hub._clients h) =? 0) eqn:Z0; [reflexivity|].
    apply Z.eqb_neq in Z0. unfold SizeT.add. rewrite wrap_small; [reflexivity|].
    assert (connected_total (Hub._clients h) / 2 <= connected_total (Hub._clients h))
      by (apply Z.div_le_upper_bound; lia).
    assert (0 <= connected_total (Hub._clients h) / 2) by (apply Z.div_pos; lia).
    lia.
  - intros c' _. unfold packetsWaiting. lia.
Qed.

End Counting.

(** X10.  [avgPacketsWaiting] on a hub of sessions within the queue cap (and
    few enough for 32-bit sums): it is 0 for a hub without sessions; it is
    the division by zero exactly when there are sessions and [count ()] is
    0; otherwise it is the number of messages queued on connected sessions
    divided by [count ()] and rounded to the nearest integer, halves upwards,
    and never more than the cap. *)
Theorem avgPacketsWaiting_rounds_the_average (T : Type) (C : AsyncClient T)
        (h : Hub.AsyncEventSource T) :
  Forall Queue.within_cap (Hub._clients h) ->
  33 * Z.of_nat (List.length (Hub._clients h)) < SizeT.modulus ->
  (Hub._clients h = [] -> Hub.avgPacketsWaiting h = Some 0)
  /\ (Hub.avgPacketsWaiting h = None <-> Hub._clients h <> [] /\ Hub.count h = 0)
  /\ (forall r,
         Hub.avgPacketsWaiting h = Some r ->
         0 <= r <= Session.SSE_MAX_QUEUED_MESSAGES
         /\ (Hub._clients h <> [] ->
             0 < Hub.count h
             /\ 2 * Hub.count h * r <= 2 * Stats.waiting_total (Hub._clients h) + Hub.count h
                < 2 * Hub.count h * (r + 1))).
Proof.
  intros Hcap Hlen.
  rewrite (avgPacketsWaiting_value h Hcap Hlen), count_connected_total.
  pose proof (connected_total_bounds (Hub._clients h)) as Hb.
  pose proof (waiting_total_bounds (Hub._clients h) Hcap) as Hw.
  unfold Session.SSE_MAX_QUEUED_MESSAGES in *.
  set (n := Stats.connected_total (Hub._clients h)) in *.
  set (w := Stats.waiting_total (Hub._clients h)) in *.
  destruct (Hub._clients h) as [|c cs] eqn:E.
  - split; [reflexivity|]. split.
    + split; [discriminate | intros [Hne _]; congruence].
    + intros r [= <-]. split; [lia | congruence].
  - split; [discriminate|].
    destruct (n =? 0) eqn:Z0.
    + apply Z.eqb_eq in Z0. split.
      * split; [intros _; split; [discriminate | exact Z0] | reflexivity].
      * discriminate.
    + apply Z.eqb_neq in Z0. split.
      * split; [discriminate | intros [_ Hz]; congruence].
      * intros r [= <-].
        assert (Hn : 0 < n) by lia.
        pose proof (Z.div_mod (w + n / 2) n ltac:(lia)) as Hdm.
        pose proof (Z.mod_pos_bound (w + n / 2) n Hn) as Hmod.
        pose proof (Z.div_mod n 2 ltac:(lia)) as Hh.
        pose proof (Z.mod_pos_bound n 2 ltac:(lia)) as Hh2.
        set (r := (w + n / 2) / n) in *.
        assert (Hr0 : 0 <= r) by (apply Z.div_pos; lia).
        split; [|intros _; split; [exact Hn|]]; nia.
Qed.

Lemma avgPacketsWaiting_rounds_the_average_witness :
  Hub.avgPacketsWaiting Examples.hub_two = Some 0
  /\ (Hub.avgPacketsWaiting Examples.hub_closing = None
      <-> Hub._clients Examples.hub_closing <> [] /\ Hub.count Examples.hub_closing = 0).
Proof.
  split; [reflexivity|].
  apply (avgPacketsWaiting_rounds_the_average Tcp.conn Tcp.conn_client Examples.hub_closing).
  - repeat constructor. vm_compute. discriminate.
  - reflexivity.
Defined.

(** ** Broadcasts and single sessions *)

(** X11.  A broadcast is the [send] of each session: the hub's [send] leaves
    every listed session that reports connected as that session's own
    [send] with the same arguments leaves it, and every other session as it
    was. *)
Theorem broadcast_is_send_per_session (T : Type) (C : AsyncClient T)
        (h : Hub.AsyncEventSource T) (malloc_line malloc_ok : nat -> bool)
        (message event : option string) (id reconnect : Z) :
  forall i c,
    nth_error (Hub._clients h) i = Some c ->
    nth_error (Hub._clients (Hub.send malloc_line malloc_ok h message event id reconnect)) i
    = Some (if Session.connected c
            then Session.send malloc_line (malloc_ok i) c message event id reconnect
            else c).
Proof.
  intros i c Hnth. unfold Hub.send. cbn [Hub._clients].
  rewrite (write_all_nth malloc_ok _ _ 0%nat i c Hnth). reflexivity.
Qed.

Lemma broadcast_is_send_per_session_witness :
  nth_error
    (Hub._clients (Hub.send always always Examples.hub_two (Some "hello") None 0 0)) 0
  = Some (Session.send always true (Examples.session (Examples.live 0) [])
                       (Some "hello") None 0 0).
Proof.
  exact (broadcast_is_send_per_session Tcp.conn Tcp.conn_client Examples.hub_two
           always always (Some "hello") None 0 0 0%nat
           (Examples.session (Examples.live 0) []) eq_refl).
Defined.

Section Stalled.

Context {T : Type} `{AsyncClient T}.
Import Message Session Queue.

Lemma write_on_stalled (s : AsyncEventSourceClient T) (client : T) (ev : string) :
  _client s = Some client ->
  client_connected client = true ->
  Z.of_nat (List.length (_messageQueue s)) < SSE_MAX_QUEUED_MESSAGES ->
  client_space client < Z.of_nat (String.length ev) < SizeT.modulus ->
  0 <= client_space client ->
  Forall (fun m => sent m = false ->
                   client_space client < SizeT.sub (_len m) (_sent m)) (_messageQueue s) ->
  write true s ev (Z.of_nat (String.length ev))
  = {| _client := Some client;
       _messageQueue :=
         ((if client_canSend client
           then remove_finished (_messageQueue s)
           else _messageQueue s) ++ [copy_of ev])%list;
       _lastId := _lastId s |}.
Proof.
  intros Hc Hup Hbelow Hroom Hspace Hfit.
  unfold write. rewrite new_copy.
  rewrite (queueMessage_below_cap s client _ Hc Hup Hbelow).
  destruct (client_canSend client); [|reflexivity].
  assert (Hcopy : finished (copy_of ev) = false).
  { unfold finished, copy_of. cbn [_acked _len]. apply Z.eqb_neq. lia. }
  rewrite runQueue_no_room.
  - cbn [fst snd]. now rewrite remove_finished_app_unfinished.
  - apply Forall_app. split; [assumption|]. repeat constructor.
    intros _. unfold copy_of. cbn [_len _sent]. unfold SizeT.sub.
    rewrite Z.sub_0_r, wrap_small; lia.
Qed.

End Stalled.

(** X12.  A broadcast to a stalled session: when the transport of a connected
    session below the cap has less room than the frame is long, and than any
    of its unsent messages needs, the session ends with one copy of the frame
    at the end of its queue, wholly unsent, and its transport is not
    touched; nothing else happens to the queue but the removal of fully
    acknowledged messages at its front, if the transport can send. *)
Theorem broadcast_queues_on_stalled_session (T : Type) (C : AsyncClient T)
        (h : Hub.AsyncEventSource T) (malloc_line malloc_ok : nat -> bool)
        (message event : option string) (id reconnect : Z)
        (i : nat) (c : Session.AsyncEventSourceClient T) (client : T) :
  let ev := generateEventMessage malloc_line message event id reconnect in
  nth_error (Hub._clients h) i = Some c ->
  Session._client c = Some client ->
  client_connected client = true ->
  malloc_ok i = true ->
  Z.of_nat (List.length (Session._messageQueue c)) < Session.SSE_MAX_QUEUED_MESSAGES ->
  0 <= client_space client < Z.of_nat (String.length ev) ->
  Z.of_nat (String.length ev) < SizeT.modulus ->
  Forall (fun m => Message.sent m = false ->
                   client_space client < SizeT.sub (Message._len m) (Message._sent m))
         (Session._messageQueue c) ->
  nth_error (Hub._clients (Hub.send malloc_line malloc_ok h message event id reconnect)) i
  = Some {| Session._client := Some client;
            Session._messageQueue :=
              ((if client_canSend client
                then Session.remove_finished (Session._messageQueue c)
                else Session._messageQueue c) ++ [Queue.copy_of ev])%list;
            Session._lastId := Session._lastId c |}.
Proof.
  intros ev Hnth Hc Hup Hok Hbelow Hroom Hlen Hfit.
  unfold Hub.send. fold ev. cbn [Hub._clients].
  rewrite (write_all_nth malloc_ok ev _ 0%nat i c Hnth). cbn [Nat.add].
  unfold Session.connected. rewrite Hc, Hup, Hok.
  rewrite (write_on_stalled c client ev Hc Hup Hbelow); auto; lia.
Qed.

Lemma broadcast_queues_on_stalled_session_witness :
  nth_error
    (Hub._clients (Hub.send always always Examples.hub_two (Some "hello") None 0 0)) 0
  = Some (Examples.session (Examples.live 0)
                           [Queue.copy_of ("data: hello" ++ CRLF ++ CRLF)]).
Proof.
  apply (broadcast_queues_on_stalled_session Tcp.conn Tcp.conn_client Examples.hub_two
           always always (Some "hello") None 0 0 0%nat
           (Examples.session (Examples.live 0) []) (Examples.live 0));
    try reflexivity.
  - vm_compute. split; [discriminate | reflexivity].
  - constructor.
Defined.

(** ** Headers and rewrites *)

Section WebFacts.

Import WString Web.

Lemma strchr_found (l rest : string) (c : ascii) :
  strchr l c = None ->
  strchr (l ++ String c rest) c = Some (String.length l).
Proof.
  intros Hl. rewrite (strchr_append_absent l _ c Hl). cbn [strchr].
  rewrite Ascii.eqb_refl. cbn. now rewrite Nat.add_0_r.
Qed.

(** A string around its first [c]. *)
Lemma strchr_split (s : string) (c : ascii) :
  forall i,
    strchr s c = Some i ->
    s = take i s ++ String c (drop (S i) s)
    /\ strchr (take i s) c = None
    /\ String.length (take i s) = i.
Proof.
  induction s as [|a s IH]; intros i; [discriminate|]. cbn [strchr].
  destruct (Ascii.eqb a c) eqn:E.
  - intros [= <-]. apply Ascii.eqb_eq in E. subst a. cbn. auto.
  - destruct (strchr s c) as [j|]; [|discriminate]. intros [= <-].
    destruct (IH j eq_refl) as (I1 & I2 & I3).
    cbn [take drop append strchr String.length]. rewrite E, I2, I3.
    repeat split. f_equal. exact I1.
Qed.

Lemma substring_prefix (l rest : string) :
  rest <> "" ->
  substring (l ++ rest) 0 (String.length l) = l.
Proof.
  intros Hrest. unfold substring. cbn [Nat.ltb Nat.leb].
  assert (Hlen : (String.length (l ++ rest) <=? 0)%nat = false).
  { apply Nat.leb_gt. rewrite length_append. destruct rest; [congruence|]. cbn. lia. }
  rewrite Hlen. cbn [drop]. rewrite Nat.sub_0_r.
  rewrite Nat.min_l by (rewrite length_append; lia). apply take_append.
Qed.

Lemma substring_suffix (l rest : string) :
  substring_from (l ++ rest) (String.length l) = rest.
Proof.
  unfold substring_from, substring. rewrite length_append.
  assert (Hlt : (String.length l + String.length rest <? String.length l)%nat = false)
    by (apply Nat.ltb_ge; lia).
  rewrite Hlt. destruct (String.length l + String.length rest <=? String.length l)%nat eqn:E.
  - apply Nat.leb_le in E. destruct rest; [reflexivity | cbn in E; lia].
  - rewrite Nat.min_id, drop_append.
    replace (String.length l + String.length rest - String.length l)%nat
      with (String.length rest) by lia.
    apply take_all.
Qed.

Lemma substring_beyond (s : string) (n : nat) :
  (String.length s < n)%nat -> substring_from s n = "".
Proof.
  intros Hn. unfold substring_from, substring.
  assert (Hlt : (String.length s <? n)%nat = true) by (apply Nat.ltb_lt; lia).
  rewrite Hlt. now rewrite Nat.leb_refl.
Qed.

Lemma parseHeader_colon (name rest : string) :
  strchr name ":" = None ->
  parseHeader (Some (name ++ String ":" rest))
  = {| header_name := name;
       header_value := substring_from (name ++ String ":" rest) (String.length name + 2) |}.
Proof.
  intros Hname. unfold parseHeader, indexOf.
  rewrite (strchr_found name rest ":" Hname).
  assert (Hneg : (Z.of_nat (String.length name) <? 0) = false) by (apply Z.ltb_ge; lia).
  rewrite Hneg, Nat2Z.id. rewrite substring_prefix by discriminate.
  f_equal. f_equal. lia.
Qed.

Lemma newRewrite_split (from pre post : string) :
  strchr pre "?" = None -> pre <> "" ->
  newRewrite from (pre ++ String "?" post)
  = {| _from := from; _toUrl := pre; _params := post; rewrite_filter := None |}.
Proof.
  intros Hpre Hne. unfold newRewrite, indexOf.
  rewrite (strchr_found pre post "?" Hpre).
  assert (Hpos : (0 <? Z.of_nat (String.length pre)) = true).
  { apply Z.ltb_lt. destruct pre; [congruence | cbn; lia]. }
  rewrite Hpos, Nat2Z.id. rewrite substring_prefix by discriminate.
  f_equal.
  replace (pre ++ String "?" post) with ((pre ++ "?") ++ post)
    by (rewrite append_assoc; reflexivity).
  replace (Z.to_nat (Z.of_nat (String.length pre) + 1)) with (String.length (pre ++ "?"))
    by (rewrite length_append; cbn; lia).
  apply substring_suffix.
Qed.

Lemma newRewrite_whole (from to : string) :
  strchr to "?" = None \/ strchr to "?" = Some O ->
  newRewrite from to
  = {| _from := from; _toUrl := to; _params := ""; rewrite_filter := None |}.
Proof.
  intros Hq. unfold newRewrite, indexOf. destruct Hq as [-> | ->]; reflexivity.
Qed.

End WebFacts.

(** X13.  Reading a header line: with a name that holds no colon, the line
    [name ":" c value] gives the name and the value whatever the character
    [c] after the colon is (it is dropped, a space or not); a line that ends
    with the colon gives the empty value; a line without a colon, or no line,
    gives the empty name and the empty value; and the line that [toString]
    writes is read back with its name, and with its value followed by the
    line break. *)
Theorem parseHeader_reads_a_line :
  (forall name value c,
      strchr name ":" = None ->
      Web.parseHeader (Some (name ++ String ":" (String c value)))
      = {| Web.header_name := name; Web.header_value := value |})
  /\ (forall name,
         strchr name ":" = None ->
         Web.parseHeader (Some (name ++ ":")) = {| Web.header_name := name; Web.header_value := "" |})
  /\ (forall data,
         strchr data ":" = None ->
         Web.parseHeader (Some data) = {| Web.header_name := ""; Web.header_value := "" |})
  /\ Web.parseHeader None = {| Web.header_name := ""; Web.header_value := "" |}
  /\ (forall h,
         strchr (Web.header_name h) ":" = None ->
         Web.parseHeader (Some (Web.toString h))
         = {| Web.header_name := Web.header_name h;
              Web.header_value := Web.header_value h ++ CRLF |}).
Proof.
  assert (Hline : forall name value c,
             strchr name ":" = None ->
             Web.parseHeader (Some (name ++ String ":" (String c value)))
             = {| Web.header_name := name; Web.header_value := value |}).
  { intros name value c Hname. rewrite (parseHeader_colon name _ Hname). f_equal.
    replace (name ++ String ":" (String c value))
      with ((name ++ String ":" (String c "")) ++ value)
      by (rewrite append_assoc; reflexivity).
    replace (String.length name + 2)%nat
      with (String.length (name ++ String ":" (String c "")))
      by (rewrite length_append; cbn; lia).
    apply substring_suffix. }
  split; [exact Hline|]. split; [|split; [|split]].
  - intros name Hname. rewrite (parseHeader_colon name "" Hname). f_equal.
    apply substring_beyond. rewrite length_append. cbn. lia.
  - intros data Hnone. unfold Web.parseHeader, WString.indexOf. now rewrite Hnone.
  - reflexivity.
  - intros [name value] Hname. unfold Web.toString. cbn [Web.header_name Web.header_value] in *.
    exact (Hline name (value ++ CRLF) " "%char Hname).
Qed.

Lemma parseHeader_reads_a_line_witness :
  Web.parseHeader (Some "Last-Event-ID:42")
  = {| Web.header_name := "Last-Event-ID"; Web.header_value := "2" |}.
Proof.
  destruct parseHeader_reads_a_line as (Hline & _).
  apply (Hline "Last-Event-ID" "2" "4"%char). reflexivity.
Defined.

(** X14.  A rewrite made from [from] and [to]: when the first ['?'] of [to]
    is not its first character, [to] is the target, the ['?'] and the
    parameters, and the target holds no ['?'] and is not empty; when [to]
    has no ['?'] or starts with one, the target is all of [to] and there are
    no parameters.  Such a rewrite has no filter and matches a request
    exactly when the url of the request is [from]. *)
Theorem newRewrite_splits_the_target (from to : string) :
  Web._from (Web.newRewrite from to) = from
  /\ match strchr to "?" with
     | Some (S i) =>
         to = Web._toUrl (Web.newRewrite from to) ++ "?" ++ Web._params (Web.newRewrite from to)
         /\ strchr (Web._toUrl (Web.newRewrite from to)) "?" = None
         /\ String.length (Web._toUrl (Web.newRewrite from to)) = S i
     | _ =>
         Web._toUrl (Web.newRewrite from to) = to
         /\ Web._params (Web.newRewrite from to) = ""
     end
  /\ (forall request,
         Web.rewriteMatch (Web.newRewrite from to) request
         = String.eqb from (Web.request_url request)).
Proof.
  split; [|split].
  - unfold Web.newRewrite. now destruct (0 <? WString.indexOf to "?").
  - destruct (strchr to "?") as [[|i]|] eqn:E.
    + rewrite newRewrite_whole by auto. split; reflexivity.
    + destruct (strchr_split to "?" (S i) E) as (Hsplit & Hnone & Hlen).
      remember (take (S i) to) as pre eqn:Epre.
      remember (drop (S (S i)) to) as post eqn:Epost.
      clear Epre Epost E. subst to.
      rewrite newRewrite_split; [|assumption|].
      * cbn [Web._toUrl Web._params]. repeat split; assumption.
      * intros Hempty. rewrite Hempty in Hlen. discriminate Hlen.
    + rewrite newRewrite_whole by auto. split; reflexivity.
  - intros request. unfold Web.rewriteMatch, Web.rewriteFilter, Web.newRewrite.
    destruct (0 <? WString.indexOf to "?"); cbn; apply andb_true_r.
Qed.

(** X15.  When a stream is served without a challenge: after
    [setAuthentication (username, password)] the handler sends the event
    stream response exactly when the user name is empty, or the password is
    empty, or the request authenticates; so credentials with an empty
    password protect nothing, and a handler that was given no credentials
    serves every request. *)
Theorem handleRequest_challenges_only_with_both_credentials
        (authenticate : Web.Request -> string -> string -> bool)
        (h : Web.AsyncWebHandler) (username password : string) (request : Web.Request) :
  (Web.handleRequest authenticate (Web.setAuthentication h username password) request
   = Web.sendEventSourceResponse
   <-> username = "" \/ password = "" \/ authenticate request username password = true)
  /\ Web.handleRequest authenticate Web.newHandler request = Web.sendEventSourceResponse.
Proof.
  split; [|reflexivity].
  unfold Web.handleRequest, Web.setAuthentication. cbn [Web._username Web._password].
  destruct (String.eqb_spec username "") as [Hu | Hu];
    destruct (String.eqb_spec password "") as [Hp | Hp];
    destruct (authenticate request username password); cbn; split; auto;
    try discriminate.
  intros [? | [? | ?]]; congruence.
Qed.

(** ** The lock and its guards *)

Section LockFacts.

Import Lock.

Lemma lock_again (task : nat) (l : AsyncWebLock) :
  _lockedBy l = Some task -> lock task l = Some (false, l).
Proof. intros Hl. unfold lock. now rewrite Hl, Nat.eqb_refl. Qed.

(** Guards made by the task that holds the lock take nothing. *)
Lemma nest_held (n : nat) (task : nat) (l : AsyncWebLock) :
  _lockedBy l = Some task ->
  nest n task l = Some (List.repeat false n, l).
Proof.
  intros Hl. induction n as [|n IH]; [reflexivity|].
  cbn [nest]. unfold newGuard. rewrite (lock_again task l Hl), IH.
  now rewrite <- repeat_cons.
Qed.

Lemma leave_idle (n : nat) (l : AsyncWebLock) : leave (List.repeat false n) l = l.
Proof. induction n as [|n IH]; [reflexivity | exact IH]. Qed.

End LockFacts.

(** X16.  Guards of one task, one inside the other, on a lock that is free:
    only the outermost guard takes the lock, and the task does not wait for
    itself; while the guards exist the lock is held by the task, a second
    [lock ()] of the task returns false at once and any other task has to
    wait; the inner guards leave their scopes without releasing the lock,
    and when the outermost guard has left too the lock is as new. *)
Theorem guards_release_at_the_outermost (task : nat) (n : nat) :
  exists l,
    Lock.nest (S n) task Lock.new = Some ((List.repeat false n ++ [true])%list, l)
    /\ Lock.held_by task l
    /\ Lock.lock task l = Some (false, l)
    /\ (forall other, other <> task -> Lock.lock other l = None)
    /\ Lock.leave (List.repeat false n) l = l
    /\ Lock.leave (List.repeat false n ++ [true])%list l = Lock.new.
Proof.
  exists {| Lock._lock := false; Lock._lockedBy := Some task |}.
  split; [|split; [|split; [|split; [|split]]]].
  - cbn [Lock.nest]. unfold Lock.newGuard, Lock.lock, Lock.new. cbn.
    now rewrite nest_held.
  - split; reflexivity.
  - now apply lock_again.
  - intros other Hother. unfold Lock.lock. cbn.
    assert (E : Nat.eqb task other = false) by (apply Nat.eqb_neq; congruence).
    now rewrite E.
  - apply leave_idle.
  - unfold Lock.leave. rewrite fold_left_app. fold (Lock.leave (List.repeat false n)).
    now rewrite leave_idle.
Qed.

(** ** Last-Event-ID *)

Section AtoiFacts.

Import Admission.

Lemma digits_of_uint_acc (d : Decimal.uint) :
  forall acc : positive,
    digits (Z.pos acc) (NilEmpty.string_of_uint d) = Z.pos (Pos.of_uint_acc d acc).
Proof.
  induction d; intros acc; cbn [NilEmpty.string_of_uint digits Pos.of_uint_acc];
    try reflexivity;
    match goal with
    | |- context [digit ?c] =>
        let v := eval vm_compute in (digit c) in change (digit c) with v
    end;
    cbv iota;
    match goal with
    | |- digits ?z _ = Z.pos (Pos.of_uint_acc _ ?p) =>
        replace z with (Z.pos p) by lia; apply IHd
    end.
Qed.

Lemma digits_of_uint (d : Decimal.uint) :
  digits 0 (NilEmpty.string_of_uint d) = Z.of_N (Pos.of_uint d).
Proof.
  induction d; cbn [NilEmpty.string_of_uint digits Pos.of_uint]; try reflexivity;
    match goal with
    | |- context [digit ?c] =>
        let v := eval vm_compute in (digit c) in change (digit c) with v
    end;
    cbv iota;
    [ exact IHd | .. ];
    match goal with
    | |- digits ?z _ = Z.of_N (N.pos (Pos.of_uint_acc _ ?p)) =>
        change z with (Z.pos p); rewrite digits_of_uint_acc; reflexivity
    end.
Qed.

Lemma skip_space_digits (d : Decimal.uint) :
  skip_space (NilEmpty.string_of_uint d) = NilEmpty.string_of_uint d.
Proof. destruct d; reflexivity. Qed.

Lemma atoi_decimal (id : Z) :
  0 <= id ->
  atoi (String_of_uint32 id) = if id <? 2 ^ 31 then Some id else None.
Proof.
  intros Hid. unfold atoi, String_of_uint32. rewrite skip_space_digits.
  assert (Hval : digits 0 (NilEmpty.string_of_uint (N.to_uint (Z.to_N id))) = id).
  { rewrite digits_of_uint. change (Pos.of_uint ?d) with (N.of_uint d).
    rewrite DecimalN.Unsigned.of_to. lia. }
  assert (Hsign : match NilEmpty.string_of_uint (N.to_uint (Z.to_N id)) with
                  | String "-" rest => (true, rest)
                  | String "+" rest => (false, rest)
                  | _ => (false, NilEmpty.string_of_uint (N.to_uint (Z.to_N id)))
                  end = (false, NilEmpty.string_of_uint (N.to_uint (Z.to_N id)))).
  { destruct (N.to_uint (Z.to_N id)); reflexivity. }
  rewrite Hsign, Hval.
  assert (Hlow : (- 2 ^ 31 <=? id) = true) by (apply Z.leb_le; lia).
  now rewrite Hlow.
Qed.

End AtoiFacts.

(** X17.  The id of a frame survives a reconnect up to [INT_MAX]: when the
    client sends the decimal id that the encoder wrote into the [id: ] field
    back as Last-Event-ID, the admitted session starts with that id as its
    last id if the id is below [2^31]; a larger id, though it fits the
    32-bit id of a frame, is outside the range of [atoi], whose result is
    then undefined. *)
Theorem lastEventId_survives_reconnect (T : Type) (C : AsyncClient T)
        (h : Hub.AsyncEventSource T) (client : T) (id : Z) :
  0 <= id < SizeT.modulus ->
  (id < 2 ^ 31 ->
   Admission.atoi (String_of_uint32 id) = Some id
   /\ Admission.newClient h client (Some (String_of_uint32 id))
      = Some (Hub._addClient h {| Session._client := Some client;
                                  Session._messageQueue := [];
                                  Session._lastId := id |}))
  /\ (2 ^ 31 <= id ->
      Admission.atoi (String_of_uint32 id) = None
      /\ Admission.newClient h client (Some (String_of_uint32 id)) = None).
Proof.
  intros [Hid0 Hid1]. unfold Admission.newClient.
  rewrite (atoi_decimal id Hid0). split; intros Hid.
  - assert (E : (id <? 2 ^ 31) = true) by (apply Z.ltb_lt; lia).
    rewrite E. split; [reflexivity|]. rewrite wrap_small by (split; assumption). reflexivity.
  - assert (E : (id <? 2 ^ 31) = false) by (apply Z.ltb_ge; lia).
    rewrite E. split; reflexivity.
Qed.

Lemma lastEventId_survives_reconnect_witness :
  Admission.atoi (String_of_uint32 3000) = Some 3000
  /\ Admission.atoi (String_of_uint32 4000000000) = None.
Proof.
  split.
  - apply (lastEventId_survives_reconnect Tcp.conn Tcp.conn_client
             Examples.hub_two Examples.closed 3000); [vm_compute; intuition discriminate | reflexivity].
  - apply (lastEventId_survives_reconnect Tcp.conn Tcp.conn_client
             Examples.hub_two Examples.closed 4000000000);
      [vm_compute; intuition discriminate | vm_compute; discriminate].
Defined.

Section AdmissionFacts.

Context {T : Type} `{AsyncClient T}.

Lemma write_all_app (malloc_ok : nat -> bool) (ev : string)
      (cs cs' : list (Session.AsyncEventSourceClient T)) :
  forall k,
    Hub.write_all malloc_ok k ev (cs ++ cs')%list
    = (Hub.write_all malloc_ok k ev cs
       ++ Hub.write_all malloc_ok (k + List.length cs) ev cs')%list.
Proof.
  induction cs as [|c cs IH]; intros k; cbn [Hub.write_all app List.length].
  - now rewrite Nat.add_0_r.
  - rewrite IH. now rewrite Nat.add_succ_r.
Qed.

Lemma ack_admits (h : Hub.AsyncEventSource T) (client : T)
      (lastEventId : option string) (len : Z) (h' : Hub.AsyncEventSource T) :
  Admission._ack h client lastEventId len = Some h' ->
  len <> 0 ->
  exists lastId,
    Hub._clients h'
    = (Hub._clients h ++ [{| Session._client := Some client;
                             Session._messageQueue := [];
                             Session._lastId := lastId |}])%list.
Proof.
  unfold Admission._ack, Admission.newClient. intros Hack Hlen.
  apply Z.eqb_neq in Hlen. rewrite Hlen in Hack.
  destruct (match lastEventId with
            | Some value => match Admission.atoi value with
                            | Some i => Some (SizeT.wrap i)
                            | None => None
                            end
            | None => Some 0
            end) as [lastId|]; [|discriminate].
  injection Hack as <-. exists lastId. reflexivity.
Qed.

End AdmissionFacts.

(** X18.  Admission and the next broadcast.  An acknowledgment of 0 bytes
    admits nobody.  Any other acknowledgment puts a new session with an
    empty queue at the end of the hub's list; the next broadcast then treats
    the sessions that were listed before exactly as it would have without
    the newcomer, and hands the newcomer, if its transport reports
    connected, one copy of the frame, which is drained at once if the
    transport can send and waits in the queue otherwise. *)
Theorem admitted_session_joins_next_broadcast (T : Type) (C : AsyncClient T)
        (h h' : Hub.AsyncEventSource T) (client : T)
        (lastEventId : option string) (len : Z) :
  Admission._ack h client lastEventId len = Some h' ->
  (len = 0 -> h' = h)
  /\ (len <> 0 ->
      exists lastId,
        Hub._clients h'
        = (Hub._clients h ++ [{| Session._client := Some client;
                                 Session._messageQueue := [];
                                 Session._lastId := lastId |}])%list
        /\ forall malloc_line malloc_ok message event id reconnect,
            let ev := generateEventMessage malloc_line message event id reconnect in
            let n := List.length (Hub._clients h) in
            firstn n (Hub._clients (Hub.send malloc_line malloc_ok h' message event id reconnect))
            = Hub._clients (Hub.send malloc_line malloc_ok h message event id reconnect)
            /\ (client_connected client = true -> malloc_ok n = true ->
                nth_error
                  (Hub._clients (Hub.send malloc_line malloc_ok h' message event id reconnect)) n
                = Some (if client_canSend client
                        then {| Session._client :=
                                  Some (fst (Session._runQueue client [Queue.copy_of ev]));
                                Session._messageQueue :=
                                  snd (Session._runQueue client [Queue.copy_of ev]);
                                Session._lastId := lastId |}
                        else {| Session._client := Some client;
                                Session._messageQueue := [Queue.copy_of ev];
                                Session._lastId := lastId |}))).
Proof.
  intros Hack. split.
  - intros ->. unfold Admission._ack in Hack. cbn in Hack. now injection Hack as <-.
  - intros Hlen. destruct (ack_admits h client lastEventId len h' Hack Hlen) as [lastId Hcs].
    exists lastId. split; [exact Hcs|].
    intros malloc_line malloc_ok message event id reconnect ev n.
    unfold Hub.send. fold ev. cbn [Hub._clients]. rewrite Hcs, write_all_app.
    assert (Hn : List.length (Hub.write_all malloc_ok 0 ev (Hub._clients h)) = n)
      by apply write_all_length.
    split.
    + rewrite <- Hn at 1. rewrite firstn_app, Nat.sub_diag, firstn_all. cbn [firstn].
      now rewrite app_nil_r.
    + intros Hup Hok. rewrite nth_error_app2 by lia. rewrite Hn, Nat.sub_diag.
      cbn [Hub.write_all nth_error Nat.add]. fold n.
      unfold Session.connected. cbn [Session._client]. rewrite Hup, Hok.
      unfold Session.write. rewrite new_copy.
      rewrite (queueMessage_below_cap
                 {| Session._client := Some client; Session._messageQueue := [];
                    Session._lastId := lastId |} client _ eq_refl Hup)
        by (cbn; reflexivity).
      cbn [Session._messageQueue Session._lastId app]. reflexivity.
Qed.

Lemma admitted_session_joins_next_broadcast_witness :
  firstn 1
    (Hub._clients
       (Hub.send always always
          {| Hub._clients := [Examples.session (Examples.live 64) [];
                              {| Session._client := Some (Examples.live 0);
                                 Session._messageQueue := [];
                                 Session._lastId := 7 |}] |}
          (Some "hello") None 0 0))
  = Hub._clients
      (Hub.send always always
         {| Hub._clients := [Examples.session (Examples.live 64) []] |}
         (Some "hello") None 0 0)
  /\ nth_error
       (Hub._clients
          (Hub.send always always
             {| Hub._clients := [Examples.session (Examples.live 64) [];
                                 {| Session._client := Some (Examples.live 0);
                                    Session._messageQueue := [];
                                    Session._lastId := 7 |}] |}
             (Some "hello") None 0 0)) 1
     = Some {| Session._client := Some (Examples.live 0);
               Session._messageQueue := [Queue.copy_of ("data: hello" ++ CRLF ++ CRLF)];
               Session._lastId := 7 |}.
Proof.
  destruct (admitted_session_joins_next_broadcast Tcp.conn Tcp.conn_client
              {| Hub._clients := [Examples.session (Examples.live 64) []] |}
              {| Hub._clients := [Examples.session (Examples.live 64) [];
                                  {| Session._client := Some (Examples.live 0);
                                     Session._messageQueue := [];
                                     Session._lastId := 7 |}] |}
              (Examples.live 0) (Some "7") 5 eq_refl) as [_ Hnew].
  destruct (Hnew ltac:(discriminate)) as (lastId & Hcs & Hnext).
  assert (Hid : lastId = 7) by (cbn in Hcs; now injection Hcs as <-).
  subst lastId.
  destruct (Hnext always always (Some "hello") None 0 0) as [Hbefore Hnewcomer].
  split; [exact Hbefore|].
  exact (Hnewcomer eq_refl eq_refl).
Defined.

(** ** What every hub keeps *)

Section Invariant.

Context {T : Type} `{AsyncClient T}.
Import Message Session Queue Events.

Lemma message_ok_same (q q' : list Message.t) :
  Forall2 same_but_sent q q' -> Forall message_ok q -> Forall message_ok q'.
Proof.
  induction 1 as [|m m' q q' (Hd & Hl & Ha) _ IH]; intros Hok; [constructor|].
  inversion Hok as [|? ? Hm Hq]; subst. constructor; [|auto].
  unfold message_ok in *. now rewrite Hd, Hl, Ha.
Qed.

Lemma runQueue_message_ok (client : T) (q : list Message.t) :
  Forall message_ok q -> Forall message_ok (snd (_runQueue client q)).
Proof.
  intros Hok. unfold _runQueue.
  apply (message_ok_same _ _ (send_unsent_same (remove_finished q) client)).
  now apply remove_finished_sublist.
Qed.

Lemma ack_message_ok (m : Message.t) (len : Z) :
  message_ok m -> message_ok (fst (ack m len)).
Proof.
  intros [Ha Hd]. destruct (ack_keeps m len) as (Kd & Kl & _).
  pose proof (ack_acked_in_length m len ltac:(lia)) as Hin.
  unfold message_ok. now rewrite Kd, Kl.
Qed.

Lemma ack_loop_message_ok (fuel : nat) :
  forall len q q',
    Forall message_ok q -> ack_loop fuel len q = Some q' -> Forall message_ok q'.
Proof.
  induction fuel as [|fuel IH]; intros len q q' Hok; [discriminate|].
  cbn [ack_loop]. destruct (len =? 0); [now intros [= <-]|].
  destruct q as [|m rest]; [now intros [= <-]|].
  inversion Hok as [|? ? Hm Hrest]; subst.
  pose proof (ack_message_ok m len Hm) as Hm'.
  destruct (ack m len) as [m' len']. cbn [fst] in Hm'.
  destruct (finished m'); intros Hloop.
  - now apply (IH _ _ _ Hrest Hloop).
  - apply (IH _ _ _ (Forall_cons _ Hm' Hrest) Hloop).
Qed.

Lemma new_message_ok (malloc_ok : bool) (ev : string) :
  message_ok (Message.new malloc_ok ev (Z.of_nat (String.length ev))).
Proof.
  destruct malloc_ok; unfold message_ok, Message.new; cbn [_acked _len _data].
  - rewrite Nat2Z.id, take_all. split; [lia | reflexivity].
  - split; [lia | reflexivity].
Qed.

Lemma queueMessage_ok (s : AsyncEventSourceClient T) (m : Message.t) :
  session_ok s -> message_ok m -> session_ok (_queueMessage s (Some m)).
Proof.
  intros (Hc & Hcap & Hq) Hm.
  split; [|split; [now apply queueMessage_within_cap|]].
  - unfold _queueMessage. destruct (_client s) as [client|] eqn:E; [|congruence].
    destruct (negb (client_connected client)); [rewrite E; discriminate|].
    destruct (client_canSend client); [|discriminate].
    destruct (_runQueue client _). discriminate.
  - unfold _queueMessage. destruct (_client s) as [client|]; [|assumption].
    destruct (negb (client_connected client)); [assumption|].
    set (q := if SSE_MAX_QUEUED_MESSAGES <=? Z.of_nat (List.length (_messageQueue s))
              then _messageQueue s else (_messageQueue s ++ [m])%list).
    assert (Hq' : Forall message_ok q).
    { subst q. destruct (SSE_MAX_QUEUED_MESSAGES <=? _); [assumption|].
      apply Forall_app. split; [assumption | now constructor]. }
    destruct (client_canSend client); [|exact Hq'].
    pose proof (runQueue_message_ok client q Hq') as Hr.
    destruct (_runQueue client q). exact Hr.
Qed.

Lemma onAck_ok (s : AsyncEventSourceClient T) (len : Z) :
  session_ok s -> session_ok (_onAck s len).
Proof.
  intros (Hc & Hcap & Hq).
  split; [|split; [now apply onAck_within_cap|]].
  - unfold _onAck. destruct (_client s) as [client|]; [|congruence].
    destruct (_runQueue client _). discriminate.
  - unfold _onAck. destruct (_client s) as [client|]; [|assumption].
    set (q := match ack_loop (ack_fuel (_messageQueue s)) len (_messageQueue s) with
              | Some q => q
              | None => _messageQueue s
              end).
    assert (Hq' : Forall message_ok q).
    { subst q. destruct (ack_loop _ len (_messageQueue s)) eqn:E; [|assumption].
      now apply (ack_loop_message_ok _ _ _ _ Hq E). }
    pose proof (runQueue_message_ok client q Hq') as Hr.
    destruct (_runQueue client q). exact Hr.
Qed.

Lemma onPoll_ok (s : AsyncEventSourceClient T) :
  session_ok s -> session_ok (_onPoll s).
Proof.
  intros (Hc & Hcap & Hq).
  split; [|split; [now apply onPoll_within_cap|]].
  - unfold _onPoll. destruct (_client s) as [client|] eqn:E; [|congruence].
    destruct (_messageQueue s); [rewrite E; discriminate|].
    destruct (_runQueue client _). discriminate.
  - unfold _onPoll. destruct (_client s) as [client|]; [|assumption].
    destruct (_messageQueue s) as [|m q] eqn:E; [now rewrite E|].
    pose proof (runQueue_message_ok client (m :: q) Hq) as Hr.
    destruct (_runQueue client (m :: q)). exact Hr.
Qed.

Lemma write_all_ok (malloc_ok : nat -> bool) (ev : string)
      (cs : list (AsyncEventSourceClient T)) :
  forall k,
    Forall session_ok cs -> Forall session_ok (Hub.write_all malloc_ok k ev cs).
Proof.
  induction cs as [|c cs IH]; intros k Hok; [constructor|].
  inversion Hok as [|? ? Hc Hcs]; subst. cbn [Hub.write_all].
  constructor; [|now apply IH].
  destruct (connected c); [|assumption].
  unfold write. apply queueMessage_ok; [assumption | apply new_message_ok].
Qed.

Lemma step_ok (h h' : Hub.AsyncEventSource T) :
  step h h' -> Forall session_ok (Hub._clients h) -> Forall session_ok (Hub._clients h').
Proof.
  intros Hstep. destruct Hstep; cbn [Hub._clients]; intros Hok.
  - (* the head of a response is acknowledged *)
    destruct (Z.eq_dec len 0) as [-> | Hlen].
    + unfold Admission._ack in *. cbn in *. now injection H0 as <-.
    + destruct (ack_admits _ _ _ _ _ H0 Hlen) as [lastId ->].
      apply Forall_app. split; [assumption|]. repeat constructor.
      * cbn. discriminate.
      * unfold within_cap. cbn. discriminate.
  - now apply write_all_ok.
  - apply Forall_app in Hok. destruct Hok as [Hb Hs].
    inversion Hs as [|? ? Hs1 Ha]; subst.
    apply Forall_app. split; [assumption|]. constructor; [|assumption].
    unfold Session.send. apply queueMessage_ok; [assumption | apply new_message_ok].
  - apply Forall_app in Hok. destruct Hok as [Hb Hs].
    inversion Hs as [|? ? Hs1 Ha]; subst.
    apply Forall_app. split; [assumption|]. constructor; [now apply onAck_ok | assumption].
  - apply Forall_app in Hok. destruct Hok as [Hb Hs].
    inversion Hs as [|? ? Hs1 Ha]; subst.
    apply Forall_app. split; [assumption|]. constructor; [now apply onPoll_ok | assumption].
  - apply Forall_app in Hok. destruct Hok as [Hb Hs].
    inversion Hs as [|? ? (Hc & Hcap & Hq) Ha]; subst.
    apply Forall_app. split; [assumption|]. constructor; [|assumption].
    split; [cbn; discriminate | split; assumption].
  - apply Forall_app in Hok. destruct Hok as [Hb Hs].
    inversion Hs as [|? ? Hs1 Ha]; subst.
    apply Forall_app. split; assumption.
Qed.

End Invariant.

(** X19.  What holds of every session of a hub, whatever has happened to the
    hub since it was made (sessions admitted, broadcasts and sends to single
    sessions, acknowledgments with any byte count, polls, transports
    changing their state, disconnects): the session has its transport; its
    queue holds no more than SSE_MAX_QUEUED_MESSAGES messages; and each
    queued message has its acknowledged offset within its length and a
    buffer of exactly its length, or no buffer and the length 0. *)
Theorem sessions_stay_well_formed (T : Type) (C : AsyncClient T)
        (h : Hub.AsyncEventSource T) :
  Events.reachable h -> Forall Events.session_ok (Hub._clients h).
Proof.
  induction 1 as [|h h' _ IH Hstep]; [constructor|].
  exact (step_ok h h' Hstep IH).
Qed.

Lemma sessions_stay_well_formed_witness :
  Forall Events.session_ok
         (Hub._clients
            (Hub.send always always
                      {| Hub._clients := [Examples.session (Examples.live 64) []] |}
                      (Some "hello") None 0 0)).
Proof.
  apply (sessions_stay_well_formed Tcp.conn Tcp.conn_client).
  eapply Events.reach_next; [|apply Events.step_broadcast].
  eapply Events.reach_next; [apply Events.reach_new|].
  apply (Events.step_ack_head {| Hub._clients := [] |} (Examples.live 64) None 1).
  reflexivity.
Defined.
